(** * A wallet ledger: deposits and transfers under per-wallet locks

    Shallow embedding of [server/storage.ts] (class [DatabaseStorage]),
    [server/patterns/walletFactory.ts], [server/errors/InsufficientFundsException.ts]
    and the error handlers of [server/routes.ts], together with the column
    types of the shared schema (wallets and transactions tables).

    Layout:
    - [JsNumber]: the ECMAScript Number operations the ledger uses
      ([parseFloat] of a decimal column, [+], [-], [<], [toFixed(2)]),
      as IEEE-754 binary64 arithmetic on dyadic rationals;
    - the store (wallets, transactions, write journal, fault schedule),
      the lock table and a state-and-exception monad;
    - the storage operations, written in that monad as the source writes
      them;
    - a small-step interleaving model of transfers contending for locks;
    - the theorems. *)

From Stdlib Require Import ZArith Lia List Bool Ascii String DecimalString.
From stdpp Require Import base option gmap strings list fin_maps.

Local Open Scope Z_scope.

(** Decimal columns ([decimal(12,2)]) are held as an integer number of
    hundredths; a JS number is held as an integer number of [2^-1074]. *)
Abbreviation decimal := Z (only parsing).
Abbreviation number := Z (only parsing).

(* ===================================================================== *)
(** ** ECMAScript numbers *)
(* ===================================================================== *)

Module JsNumber.

(** Every finite binary64 value is an integer multiple of [2^-1074]
    (the least subnormal), so a finite Number [x] is represented by the
    integer [x * 2^1074].  Values beyond the largest finite double
    (overflow to [Infinity]) and [NaN] are outside the model; the ledger
    compares every amount with a [decimal(12,2)] column before it does
    arithmetic with it. *)
Definition unit_exp : Z := 1074.
Definition U : Z := 2 ^ unit_exp.

(** Nearest integer to [n / d] ([d > 0]), ties to the even integer. *)
Definition round_nearest_even (n d : Z) : Z :=
  let q := n / d in
  let r := n mod d in
  match 2 * r ?= d with
  | Lt => q
  | Gt => q + 1
  | Eq => if Z.even q then q else q + 1
  end.

(** Nearest double to the non-negative rational [n / d] (counted in
    units): keep 53 significant bits, or all bits in the subnormal
    range where the spacing is one unit. *)
Definition round53 (n d : Z) : Z :=
  let k := Z.max 0 (Z.log2 (n / d) - 52) in
  round_nearest_even n (d * 2 ^ k) * 2 ^ k.

(** Round-to-nearest-even is symmetric around zero. *)
Definition fl (n d : Z) : Z :=
  if n <? 0 then - round53 (- n) d else round53 n d.

(** The Number denoted by a decimal literal with two fractional digits,
    given in hundredths: what [parseFloat("12.34")] and
    [JSON.parse("12.34")] return. *)
Definition number_of_decimal (c : decimal) : number := fl (c * U) 100.

Definition parseFloat (c : decimal) : number := number_of_decimal c.

(** [x + y] and [x - y] on Numbers: the exact result, rounded. *)
Definition add (x y : number) : number := fl (x + y) 1.
Definition sub (x y : number) : number := fl (x - y) 1.

(** [x < y] and [x > y] on finite Numbers are exact. *)
Definition lt (x y : number) : bool := x <? y.
Definition gt (x y : number) : bool := y <? x.

(** [x.toFixed(2)]: the integer [n] for which [n / 100 - x] is as close
    to zero as possible, the larger [n] on a tie, after the sign has
    been split off; the digits are returned in hundredths. *)
Definition toFixed2 (x : number) : decimal :=
  if x <? 0 then - ((200 * (- x) + U) / (2 * U))
  else (200 * x + U) / (2 * U).

(** A Number that is an exact multiple of a power of two:
    [dyadic m e] is [m * 2^e], for [e >= -1074]. *)
Definition dyadic (m e : Z) : number := m * 2 ^ (unit_exp + e).

(** [x > 0] as the request schema's [z.number().positive()] tests it. *)
Definition positive (x : number) : bool := 0 <? x.

(** [2^-20], half the spacing of the doubles between [2^33] and
    [2^34]: no Number below [2^34] is further than this from the real
    it was rounded from. *)
Definition P : Z := 2 ^ 1054.

End JsNumber.

(* ===================================================================== *)
(** ** Text of decimal values *)
(* ===================================================================== *)

Definition digit_string (n : Z) : string :=
  NilZero.string_of_uint (N.to_uint (Z.to_N n)).

(** A number of hundredths written with two fractional digits, the way
    PostgreSQL prints a [decimal(12,2)] column and [toFixed(2)] prints a
    Number: ["1000.00"], ["-0.05"]. *)
Definition unsigned_decimal_string (c : Z) : string :=
  String.append (digit_string (c / 100))
    (String.append "." (String.append (digit_string (c mod 100 / 10))
                                      (digit_string (c mod 10)))).

Definition decimal_string (c : decimal) : string :=
  if c <? 0 then String.append "-" (unsigned_decimal_string (- c))
  else unsigned_decimal_string c.

(** [x.toFixed(2)] as text; a negative [x] keeps its sign even when the
    digits are all zero. *)
Definition toFixed2_string (x : number) : string :=
  if x <? 0 then String.append "-" (unsigned_decimal_string (- JsNumber.toFixed2 x))
  else unsigned_decimal_string (JsNumber.toFixed2 x).

(* ===================================================================== *)
(** ** Exceptions *)
(* ===================================================================== *)

(** A thrown value is either an [Error] known only by its message (the
    [new Error(...)] of the storage layer, and whatever the database
    driver or the file system raises), or the one custom class of the
    repository, which carries its fields. *)
Inductive Exn : Type :=
| JsError (message : string)
| InsufficientFundsException
    (availableBalance requestedAmount : number) (walletId : string).

(** [error.message]; for the custom class, the text its constructor
    passes to [super]. *)
Definition message (error : Exn) : string :=
  match error with
  | JsError m => m
  | InsufficientFundsException availableBalance requestedAmount _ =>
      String.append "Insufficient funds: Available $"
        (String.append (toFixed2_string availableBalance)
           (String.append ", Required $" (toFixed2_string requestedAmount)))
  end.


(* ===================================================================== *)
(** ** The store *)
(* ===================================================================== *)

(** Rows of the [wallets] and [transactions] tables.  The timestamp
    columns are left out: no operation below reads them.  The varchar
    columns ([wallet_type], [type], [payment_mode], [status]) are strings
    as in the schema. *)
Record Wallet : Type := {
  w_id : string;
  w_userId : string;
  w_balance : decimal;
  w_walletType : string;
  w_transactionLimit : decimal
}.

(** A transaction id is the row's position in the table: the database
    draws a fresh id for every insert and rows are never deleted.
    [t_amount] is the text [amount.toString()] handed to the insert, kept
    as the Number it denotes. *)
Record Transaction : Type := {
  t_id : nat;
  t_walletId : string;
  t_amount : number;
  t_type : string;
  t_paymentMode : string;
  t_status : string;
  t_description : option string;
  t_recipientWalletId : option string;
  t_recipientUserId : option string;
  t_errorMessage : option string
}.

(** The argument of [createTransaction]. *)
Record InsertTransaction : Type := {
  i_walletId : string;
  i_amount : number;
  i_type : string;
  i_paymentMode : string;
  i_status : string;
  i_description : option string;
  i_recipientWalletId : option string;
  i_recipientUserId : option string
}.

(** Committed writes, oldest first. *)
Inductive Write : Type :=
| InsertWallet (w : Wallet)
| SetBalance (walletId : string) (newBalance : decimal)
| InsertTransactionRow (t : Transaction)
| SetStatus (transactionId : nat) (status : string) (errorMessage : option string).

(** The whole state the storage layer works on:
    - the two tables and the journal of committed writes;
    - [faults]: what the next calls that write to the database or to the
      file system will do, in order: [None] lets the call through,
      [Some msg] makes it throw an error with that message; past the end
      of the schedule every call goes through;
    - [walletLocks]: the module-level [Map<string, Mutex>], each mutex by
      whether it is currently locked;
    - [walletCounter]: the static counter of [WalletFactory]. *)
Record World : Type := {
  wallets : gmap string Wallet;
  transactions : list Transaction;
  journal : list Write;
  faults : list (option string);
  walletLocks : gmap string bool;
  walletCounter : nat
}.

Definition set_wallets (f : gmap string Wallet → gmap string Wallet) (s : World) : World :=
  {| wallets := f (wallets s); transactions := transactions s;
     journal := journal s; faults := faults s;
     walletLocks := walletLocks s; walletCounter := walletCounter s |}.

Definition set_transactions (f : list Transaction → list Transaction) (s : World) : World :=
  {| wallets := wallets s; transactions := f (transactions s);
     journal := journal s; faults := faults s;
     walletLocks := walletLocks s; walletCounter := walletCounter s |}.

Definition log_write (w : Write) (s : World) : World :=
  {| wallets := wallets s; transactions := transactions s;
     journal := journal s ++ [w]; faults := faults s;
     walletLocks := walletLocks s; walletCounter := walletCounter s |}.

Definition set_faults (fs : list (option string)) (s : World) : World :=
  {| wallets := wallets s; transactions := transactions s;
     journal := journal s; faults := fs;
     walletLocks := walletLocks s; walletCounter := walletCounter s |}.

Definition set_walletLocks (f : gmap string bool → gmap string bool) (s : World) : World :=
  {| wallets := wallets s; transactions := transactions s;
     journal := journal s; faults := faults s;
     walletLocks := f (walletLocks s); walletCounter := walletCounter s |}.

Definition set_walletCounter (n : nat) (s : World) : World :=
  {| wallets := wallets s; transactions := transactions s;
     journal := journal s; faults := faults s;
     walletLocks := walletLocks s; walletCounter := n |}.

(** Largest magnitude a [decimal(12,2)] column holds, in hundredths,
    plus one. *)
Definition decimal_12_2_bound : Z := 10 ^ 12.

Definition fits_decimal_12_2 (c : decimal) : bool :=
  (- decimal_12_2_bound <? c) && (c <? decimal_12_2_bound).

(* ===================================================================== *)
(** ** Computations: state, exceptions, and promises that never settle *)
(* ===================================================================== *)

Inductive Outcome (A : Type) : Type :=
| Returned (a : A)
| Threw (e : Exn)
| Blocked.

Arguments Returned {A} a.
Arguments Threw {A} e.
Arguments Blocked {A}.

Definition M (A : Type) : Type := World → Outcome A * World.

Definition ret {A : Type} (a : A) : M A := fun s => (Returned a, s).

Definition throw {A : Type} (e : Exn) : M A := fun s => (Threw e, s).

Definition bind {A B : Type} (m : M A) (k : A → M B) : M B :=
  fun s =>
    match m s with
    | (Returned a, s') => k a s'
    | (Threw e, s') => (Threw e, s')
    | (Blocked, s') => (Blocked, s')
    end.

(** [try { m } catch (error) { h error }] *)
Definition try_catch {A : Type} (m : M A) (h : Exn → M A) : M A :=
  fun s =>
    match m s with
    | (Threw e, s') => h e s'
    | r => r
    end.

Definition gets {A : Type} (f : World → A) : M A := fun s => (Returned (f s), s).

Definition modify (f : World → World) : M unit := fun s => (Returned tt, f s).

Notation "'do' x <- m ; k" := (bind m (fun x => k))
  (at level 10, x name, m at level 100, k at level 200,
   format "'[v' 'do'  x  <-  m ; '/' k ']'").
Notation "'exec' m ; k" := (bind m (fun _ => k))
  (at level 10, m at level 100, k at level 200,
   format "'[v' 'exec'  m ; '/' k ']'").

(** [wp m Q s]: running [m] from [s] ends in an outcome and a state that
    satisfy [Q]. *)
Definition wp {A : Type} (m : M A) (Q : Outcome A → World → Prop) (s : World) : Prop :=
  Q (m s).1 (m s).2.

(** One call that reaches the database or the file system: it consumes
    the head of the fault schedule. *)
Definition io : M unit :=
  fun s =>
    match faults s with
    | Some msg :: rest => (Threw (JsError msg), set_faults rest s)
    | None :: rest => (Returned tt, set_faults rest s)
    | [] => (Returned tt, s)
    end.

(* ===================================================================== *)
(** ** The wallet lock table ([walletLocks], [getWalletLock], [Mutex]) *)
(* ===================================================================== *)

(** A mutex is named by its key in the table: [getWalletLock] returns the
    same [Mutex] object for the same wallet id. *)
Definition getWalletLock (walletId : string) : M string :=
  do known <- gets (fun s => bool_decide (is_Some (walletLocks s !! walletId)));
  exec (if known then ret tt
        else modify (set_walletLocks (insert walletId false)));
  ret walletId.

Definition isLocked (lock : string) (s : World) : bool :=
  match walletLocks s !! lock with
  | Some true => true
  | _ => false
  end.

(** [Mutex.acquire]: succeeds at once on a free mutex; on a locked one the
    caller waits for a release ([None]: no step to take now). *)
Definition acquire (lock : string) (s : World) : option World :=
  if isLocked lock s then None
  else Some (set_walletLocks (insert lock true) s).

Definition release (lock : string) (s : World) : World :=
  set_walletLocks (insert lock false) s.

(** [mutex.runExclusive(callback)]: acquire, run the callback, release in
    a [finally].  The mutex is not reentrant: when it is locked and only
    this computation is running, nobody will release it and the promise
    never settles.  A callback that never settles keeps the mutex. *)
Definition runExclusive {A : Type} (lock : string) (callback : M A) : M A :=
  fun s =>
    match acquire lock s with
    | None => (Blocked, s)
    | Some s1 =>
        match callback s1 with
        | (Blocked, s2) => (Blocked, s2)
        | (r, s2) => (r, release lock s2)
        end
    end.

(** [Array.prototype.sort()] without a comparator on strings: ascending
    by code units, stable. *)
Fixpoint sort_insert (x : string) (l : list string) : list string :=
  match l with
  | [] => [x]
  | y :: l' => if String.leb y x then y :: sort_insert x l'
               else x :: y :: l'
  end.

Definition sort (l : list string) : list string :=
  foldr sort_insert [] (rev l).

(** [locks[i]] for an index inside the array. *)
Definition at_index (l : list string) (i : nat) : string :=
  nth i l EmptyString.

(* ===================================================================== *)
(** ** Wallet factory ([server/patterns/walletFactory.ts]) *)
(* ===================================================================== *)

Module WalletFactory.

(** [transactionLimit] is the string literal of the source, in
    hundredths. *)
Record WalletConfig : Type := {
  walletType : string;
  transactionLimit : decimal
}.

(** The parameter is typed ['Basic' | 'Premium'] but the [switch] has a
    [default] arm for every other run-time value. *)
Definition createWallet (type : string) : M WalletConfig :=
  exec modify (fun s => set_walletCounter (S (walletCounter s)) s);
  if String.eqb type "Basic" then
    ret {| walletType := "Basic"; transactionLimit := 100000 |}
  else if String.eqb type "Premium" then
    ret {| walletType := "Premium"; transactionLimit := 1000000 |}
  else
    throw (JsError (String.append "Unknown wallet type: " type)).

End WalletFactory.

(* ===================================================================== *)
(** ** Observers *)
(* ===================================================================== *)

(** [WalletSerializer.serializeWallet]: writes the wallet to a file; an
    error of the file system is logged and thrown again, so it reaches
    the caller.  The file itself is not part of the ledger. *)
Definition serializeWallet (wallet : Wallet) : M unit := io.

(** Modelled from the spec: [TransactionLogger.logTransaction]
    ([server/utils/transactionLogger.ts] is not among the sources).  The
    spec makes it an audit observer that receives a copy of the record
    and whose failure is never surfaced: no effect on the ledger, never
    throws. *)
Definition logTransaction (t : Transaction) : M unit := ret tt.

(* ===================================================================== *)
(** ** Storage operations ([server/storage.ts]) *)
(* ===================================================================== *)

Module DatabaseStorage.

(** [db.select().from(wallets).where(eq(wallets.id, walletId))],
    destructured as [[wallet]].  Reads are taken to succeed. *)
Definition selectWallet (walletId : string) : M (option Wallet) :=
  gets (fun s => wallets s !! walletId).

(** [newId] is the id [gen_random_uuid()] draws for the row. *)
Definition createWallet (newId userId walletType : string) : M Wallet :=
  do config <- WalletFactory.createWallet walletType;
  exec io;
  do taken <- gets (fun s => bool_decide (is_Some (wallets s !! newId)));
  if taken then
    throw (JsError "duplicate key value violates unique constraint")
  else
    let wallet :=
      {| w_id := newId; w_userId := userId; w_balance := 0;
         w_walletType := WalletFactory.walletType config;
         w_transactionLimit := WalletFactory.transactionLimit config |} in
    exec modify (fun s => log_write (InsertWallet wallet)
                            (set_wallets (insert newId wallet) s));
    exec serializeWallet wallet;
    ret wallet.

Definition with_balance (newBalance : decimal) (w : Wallet) : Wallet :=
  {| w_id := w_id w; w_userId := w_userId w; w_balance := newBalance;
     w_walletType := w_walletType w;
     w_transactionLimit := w_transactionLimit w |}.

(** [newBalance] is the text produced by [toFixed(2)], in hundredths.
    The column is [decimal(12,2)]: a value that does not fit makes the
    update fail.  When no row matches, [returning()] is empty and
    [serializeWallet(undefined)] throws a [TypeError] on [wallet.id]. *)
Definition updateWalletBalance (walletId : string) (newBalance : decimal) : M Wallet :=
  exec io;
  if negb (fits_decimal_12_2 newBalance) then
    throw (JsError "numeric field overflow")
  else
    do row <- selectWallet walletId;
    match row with
    | None =>
        throw (JsError "Cannot read properties of undefined (reading 'id')")
    | Some old =>
        let wallet := with_balance newBalance old in
        exec modify (fun s => log_write (SetBalance walletId newBalance)
                                (set_wallets (insert walletId wallet) s));
        exec serializeWallet wallet;
        ret wallet
    end.

Definition createTransaction (transaction : InsertTransaction) : M Transaction :=
  exec io;
  do newId <- gets (fun s => length (transactions s));
  let newTransaction :=
    {| t_id := newId;
       t_walletId := i_walletId transaction;
       t_amount := i_amount transaction;
       t_type := i_type transaction;
       t_paymentMode := i_paymentMode transaction;
       t_status := i_status transaction;
       t_description := i_description transaction;
       t_recipientWalletId := i_recipientWalletId transaction;
       t_recipientUserId := i_recipientUserId transaction;
       t_errorMessage := None |} in
  exec modify (fun s => log_write (InsertTransactionRow newTransaction)
                          (set_transactions (fun l => l ++ [newTransaction]) s));
  exec logTransaction newTransaction;
  ret newTransaction.

(** In [.set({ status, errorMessage, ... })] an [undefined]
    [errorMessage] leaves the column as it is. *)
Definition with_status (status : string) (errorMessage : option string)
    (t : Transaction) : Transaction :=
  {| t_id := t_id t; t_walletId := t_walletId t; t_amount := t_amount t;
     t_type := t_type t; t_paymentMode := t_paymentMode t;
     t_status := status;
     t_description := t_description t;
     t_recipientWalletId := t_recipientWalletId t;
     t_recipientUserId := t_recipientUserId t;
     t_errorMessage := match errorMessage with
                       | Some m => Some m
                       | None => t_errorMessage t
                       end |}.

(** Returns the updated row, or [undefined] when no row has that id. *)
Definition updateTransactionStatus (transactionId : nat) (status : string)
    (errorMessage : option string) : M (option Transaction) :=
  exec io;
  do row <- gets (fun s => transactions s !! transactionId);
  match row with
  | None => ret None
  | Some old =>
      let transaction := with_status status errorMessage old in
      exec modify (fun s => log_write (SetStatus transactionId status errorMessage)
                              (set_transactions (<[transactionId := transaction]>) s));
      ret (Some transaction)
  end.

Definition limit_message (limit : decimal) : string :=
  String.append "Amount exceeds transaction limit of $" (decimal_string limit).

(** The [catch] block of [deposit] and of [transfer]: mark the pending
    record failed with the error's message, then throw the error
    again. *)
Definition mark_failed (transactionId : nat) (error : Exn) : M (option Transaction) :=
  exec updateTransactionStatus transactionId "failed" (Some (message error));
  throw error.

Definition deposit_request (walletId : string) (amount : number)
    (paymentMode : string) (description : option string) : InsertTransaction :=
  {| i_walletId := walletId; i_amount := amount; i_type := "deposit";
     i_paymentMode := paymentMode; i_status := "pending";
     i_description := description;
     i_recipientWalletId := None; i_recipientUserId := None |}.

(** The [try] block of [deposit]. *)
Definition deposit_attempt (walletId : string) (amount : number)
    (wallet : Wallet) (transaction : Transaction) : M (option Transaction) :=
  let newBalance :=
    JsNumber.toFixed2
      (JsNumber.add (JsNumber.parseFloat (w_balance wallet)) amount) in
  exec updateWalletBalance walletId newBalance;
  do successTransaction <-
    updateTransactionStatus (t_id transaction) "success" None;
  ret successTransaction.

(** The callback [deposit] runs under the wallet's mutex. *)
Definition deposit_exclusive (walletId : string) (amount : number)
    (paymentMode : string) (description : option string) : M (option Transaction) :=
  do row <- selectWallet walletId;
  match row with
  | None => throw (JsError "Wallet not found")
  | Some wallet =>
      if JsNumber.gt amount (JsNumber.parseFloat (w_transactionLimit wallet)) then
        throw (JsError (limit_message (w_transactionLimit wallet)))
      else
        do transaction <-
          createTransaction (deposit_request walletId amount paymentMode description);
        try_catch (deposit_attempt walletId amount wallet transaction)
                  (mark_failed (t_id transaction))
  end.

Definition deposit (walletId : string) (amount : number)
    (paymentMode : string) (description : option string) : M (option Transaction) :=
  do lock <- getWalletLock walletId;
  runExclusive lock (deposit_exclusive walletId amount paymentMode description).

Definition out_request (fromWalletId toWalletId toUserId : string)
    (amount : number) (description : option string) : InsertTransaction :=
  {| i_walletId := fromWalletId; i_amount := amount;
     i_type := "transfer_out"; i_paymentMode := "WalletBalance";
     i_status := "pending"; i_description := description;
     i_recipientWalletId := Some toWalletId;
     i_recipientUserId := Some toUserId |}.

Definition in_request (fromWalletId toWalletId : string)
    (amount : number) (description : option string) : InsertTransaction :=
  {| i_walletId := toWalletId; i_amount := amount;
     i_type := "transfer_in"; i_paymentMode := "WalletBalance";
     i_status := "success"; i_description := description;
     i_recipientWalletId := Some fromWalletId;
     i_recipientUserId := None |}.

(** The [try] block of [transfer].  [currentBalance] and [toWallet] are
    the values read before the block. *)
Definition transfer_attempt (fromWalletId toWalletId : string)
    (amount : number) (description : option string)
    (currentBalance : number) (toWallet : Wallet)
    (outTransaction : Transaction) : M (option Transaction) :=
  let newFromBalance :=
    JsNumber.toFixed2 (JsNumber.sub currentBalance amount) in
  exec updateWalletBalance fromWalletId newFromBalance;
  let newToBalance :=
    JsNumber.toFixed2
      (JsNumber.add (JsNumber.parseFloat (w_balance toWallet)) amount) in
  exec updateWalletBalance toWalletId newToBalance;
  exec createTransaction (in_request fromWalletId toWalletId amount description);
  do successTransaction <-
    updateTransactionStatus (t_id outTransaction) "success" None;
  ret successTransaction.

(** The callback [transfer] runs under both mutexes. *)
Definition transfer_exclusive (fromWalletId toWalletId toUserId : string)
    (amount : number) (description : option string) : M (option Transaction) :=
  do fromRow <- selectWallet fromWalletId;
  do toRow <- selectWallet toWalletId;
  match fromRow, toRow with
  | Some fromWallet, Some toWallet =>
      let currentBalance := JsNumber.parseFloat (w_balance fromWallet) in
      if JsNumber.lt currentBalance amount then
        throw (InsufficientFundsException currentBalance amount fromWalletId)
      else if JsNumber.gt amount (JsNumber.parseFloat (w_transactionLimit fromWallet)) then
        throw (JsError (limit_message (w_transactionLimit fromWallet)))
      else
        do outTransaction <-
          createTransaction
            (out_request fromWalletId toWalletId toUserId amount description);
        try_catch (transfer_attempt fromWalletId toWalletId amount description
                     currentBalance toWallet outTransaction)
                  (mark_failed (t_id outTransaction))
  | _, _ => throw (JsError "Wallet not found")
  end.

Definition transfer (fromWalletId toWalletId toUserId : string)
    (amount : number) (description : option string) : M (option Transaction) :=
  let locks := sort [fromWalletId; toWalletId] in
  do lock1 <- getWalletLock (at_index locks 0);
  do lock2 <- getWalletLock (at_index locks 1);
  runExclusive lock1
    (runExclusive lock2
       (transfer_exclusive fromWalletId toWalletId toUserId amount description)).

(** *** States the operations pass through *)

(** The row [createTransaction] inserts, and the state after it. *)
Definition new_row (i : InsertTransaction) (s : World) : Transaction :=
  {| t_id := length (transactions s);
     t_walletId := i_walletId i; t_amount := i_amount i; t_type := i_type i;
     t_paymentMode := i_paymentMode i; t_status := i_status i;
     t_description := i_description i;
     t_recipientWalletId := i_recipientWalletId i;
     t_recipientUserId := i_recipientUserId i; t_errorMessage := None |}.

Definition row_inserted (i : InsertTransaction) (s : World) : World :=
  log_write (InsertTransactionRow (new_row i s))
    (set_transactions (fun l => l ++ [new_row i s]) s).

(** The state after the update of [updateWalletBalance]. *)
Definition balance_written (walletId : string) (newBalance : decimal)
    (old : Wallet) (s : World) : World :=
  log_write (SetBalance walletId newBalance)
    (set_wallets (insert walletId (with_balance newBalance old)) s).

(** The state after the update of [updateTransactionStatus]. *)
Definition status_set (transactionId : nat) (status : string)
    (errorMessage : option string) (old : Transaction) (s : World) : World :=
  log_write (SetStatus transactionId status errorMessage)
    (set_transactions (<[transactionId := with_status status errorMessage old]>) s).

(** The state a transfer that runs to its end leaves, fault schedule
    and lock table apart.  When both ids name one wallet the credit
    finds the row the debit has just written. *)
Definition transferred (fromWalletId toWalletId toUserId : string)
    (amount : number) (description : option string)
    (fromWallet toWallet : Wallet) (s : World) : World :=
  let request := out_request fromWalletId toWalletId toUserId amount description in
  let newFromBalance :=
    JsNumber.toFixed2
      (JsNumber.sub (JsNumber.parseFloat (w_balance fromWallet)) amount) in
  let newToBalance :=
    JsNumber.toFixed2
      (JsNumber.add (JsNumber.parseFloat (w_balance toWallet)) amount) in
  let credited :=
    if decide (fromWalletId = toWalletId)
    then with_balance newFromBalance fromWallet else toWallet in
  status_set (t_id (new_row request s)) "success" None (new_row request s)
    (row_inserted (in_request fromWalletId toWalletId amount description)
       (balance_written toWalletId newToBalance credited
          (balance_written fromWalletId newFromBalance fromWallet
             (row_inserted request s)))).

End DatabaseStorage.

(* ===================================================================== *)
(** ** Route handlers: how the caller reports a thrown error
       ([server/routes.ts]) *)
(* ===================================================================== *)





(* ===================================================================== *)
(** ** Concurrent transfers *)
(* ===================================================================== *)

(** Several [transfer] calls in flight in one process.  A call advances
    from one suspension point to the next; which call advances is the
    scheduler's choice.  The callback under both mutexes is taken in one
    step: every other call on these wallets is waiting for a mutex while
    it runs. *)
Module Interleaving.

Record TransferCall : Type := {
  c_fromWalletId : string;
  c_toWalletId : string;
  c_toUserId : string;
  c_amount : number;
  c_description : option string
}.

Definition Result : Type := Outcome (option Transaction).

Inductive Stage : Type :=
| Called                      (* [transfer] entered *)
| AwaitFirst                  (* in [lock1.runExclusive], not yet acquired *)
| AwaitSecond                 (* holds [lock1]; in [lock2.runExclusive] *)
| Exclusive                   (* holds both; callback not yet run *)
| ReleaseSecond (r : Result)  (* callback done; [finally] of [lock2] *)
| ReleaseFirst (r : Result)   (* [finally] of [lock1] *)
| Settled (r : Result).       (* the promise of [transfer] has settled *)

Record Activity : Type := { call : TransferCall; stage : Stage }.

Definition locks_of (c : TransferCall) : list string :=
  sort [c_fromWalletId c; c_toWalletId c].

Definition lock1 (c : TransferCall) : string := at_index (locks_of c) 0.
Definition lock2 (c : TransferCall) : string := at_index (locks_of c) 1.

Definition at_stage (c : TransferCall) (st : Stage) : Activity :=
  {| call := c; stage := st |}.

(** One step of a call, or [None] when it cannot move: it waits for a
    mutex, or it has settled. *)
Definition activity_step (s : World) (t : Activity) : option (World * Activity) :=
  let c := call t in
  match stage t with
  | Called =>
      let s' := snd ((exec getWalletLock (lock1 c);
                      getWalletLock (lock2 c)) s) in
      Some (s', at_stage c AwaitFirst)
  | AwaitFirst =>
      s' ← acquire (lock1 c) s; Some (s', at_stage c AwaitSecond)
  | AwaitSecond =>
      s' ← acquire (lock2 c) s; Some (s', at_stage c Exclusive)
  | Exclusive =>
      match DatabaseStorage.transfer_exclusive
              (c_fromWalletId c) (c_toWalletId c) (c_toUserId c)
              (c_amount c) (c_description c) s with
      | (Blocked, _) => None
      | (r, s') => Some (s', at_stage c (ReleaseSecond r))
      end
  | ReleaseSecond r => Some (release (lock2 c) s, at_stage c (ReleaseFirst r))
  | ReleaseFirst r => Some (release (lock1 c) s, at_stage c (Settled r))
  | Settled _ => None
  end.

Record System : Type := { world : World; activities : list Activity }.

(** The scheduler resumes activity [i]. *)
Definition step_at (i : nat) (sys : System) : option System :=
  t ← activities sys !! i;
  '(s', t') ← activity_step (world sys) t;
  Some {| world := s'; activities := <[i := t']> (activities sys) |}.

(** A run: the activities resumed, in order; [None] when the scheduler picks
    an activity that cannot move. *)
Fixpoint run (schedule : list nat) (sys : System) : option System :=
  match schedule with
  | [] => Some sys
  | i :: rest => sys' ← step_at i sys; run rest sys'
  end.

Definition settled (t : Activity) : bool :=
  match stage t with
  | Settled _ => true
  | _ => false
  end.

Definition all_settled (sys : System) : bool := forallb settled (activities sys).

(** Steps an activity still has to take. *)
Definition remaining (t : Activity) : nat :=
  match stage t with
  | Called => 6
  | AwaitFirst => 5
  | AwaitSecond => 4
  | Exclusive => 3
  | ReleaseSecond _ => 2
  | ReleaseFirst _ => 1
  | Settled _ => 0
  end.

(** Two transfers between the same pair of wallets, in opposite
    directions, both just called. *)
Definition opposite_transfers (s : World) (x y xUser yUser : string)
    (amount1 amount2 : number) (d1 d2 : option string) : System :=
  {| world := s;
     activities :=
       [ at_stage {| c_fromWalletId := x; c_toWalletId := y; c_toUserId := yUser;
                     c_amount := amount1; c_description := d1 |} Called;
         at_stage {| c_fromWalletId := y; c_toWalletId := x; c_toUserId := xUser;
                     c_amount := amount2; c_description := d2 |} Called ] |}.

(** Which mutexes an activity holds, by its stage. *)
Definition holds_first (t : Activity) : bool :=
  match stage t with
  | AwaitSecond | Exclusive | ReleaseSecond _ | ReleaseFirst _ => true
  | _ => false
  end.

Definition holds_second (t : Activity) : bool :=
  match stage t with
  | Exclusive | ReleaseSecond _ => true
  | _ => false
  end.

Definition total_remaining (sys : System) : nat :=
  foldr (fun t n => (remaining t + n)%nat) 0%nat (activities sys).

(** Two activities that take the same two mutexes in the same order, and a
    lock table that agrees with their stages: a mutex is locked exactly
    when one of the two holds it, and never both. *)
Definition consistent (first second : string) (sys : System) : Prop :=
  ∃ t1 t2,
    activities sys = [t1; t2] ∧
    lock1 (call t1) = first ∧ lock2 (call t1) = second ∧
    lock1 (call t2) = first ∧ lock2 (call t2) = second ∧
    isLocked first (world sys) = holds_first t1 || holds_first t2 ∧
    isLocked second (world sys) = holds_second t1 || holds_second t2 ∧
    holds_first t1 && holds_first t2 = false.

End Interleaving.

(* ===================================================================== *)
(** ** Sequences of operations *)
(* ===================================================================== *)

Inductive Operation : Type :=
| Deposit (walletId : string) (amount : number) (paymentMode : string)
    (description : option string)
| Transfer (fromWalletId toWalletId toUserId : string) (amount : number)
    (description : option string).

Definition perform (op : Operation) : M (option Transaction) :=
  match op with
  | Deposit walletId amount paymentMode description =>
      DatabaseStorage.deposit walletId amount paymentMode description
  | Transfer fromWalletId toWalletId toUserId amount description =>
      DatabaseStorage.transfer fromWalletId toWalletId toUserId amount description
  end.

(** The states seen after each operation of a sequence, in order, each
    operation starting when the one before it has settled. *)
Fixpoint observations (ops : list Operation) (s : World) : list World :=
  match ops with
  | [] => []
  | op :: rest => let s' := snd (perform op s) in s' :: observations rest s'
  end.

(** What the claims require of the operations of a sequence. *)
Definition admissible (op : Operation) : Prop :=
  match op with
  | Deposit _ amount _ _ => JsNumber.positive amount = true
  | Transfer fromWalletId toWalletId _ amount _ =>
      JsNumber.positive amount = true ∧ fromWalletId ≠ toWalletId
  end.

(* ===================================================================== *)
(** ** Predicates used in the statements *)
(* ===================================================================== *)

(** The next call to the outside goes through. *)
Definition goes_through (fs : list (option string)) : Prop :=
  match fs with
  | Some _ :: _ => False
  | _ => True
  end.


(** Replace the lock table. *)
Definition with_locks (locks : gmap string bool) (s : World) : World :=
  set_walletLocks (fun _ => locks) s.

(** A computation that neither reads nor writes the lock table, and
    always settles. *)
Definition lock_independent {A : Type} (m : M A) : Prop :=
  ∀ locks s,
    m (with_locks locks s) = ((m s).1, with_locks locks (m s).2) ∧
    (m s).1 ≠ Blocked.

Definition nonneg_balances (s : World) : Prop :=
  ∀ walletId w, wallets s !! walletId = Some w → 0 ≤ w_balance w.

(** The exact rational value of a decimal equals that of a Number. *)
Definition decimal_is_number (c : decimal) (x : number) : Prop :=
  c * JsNumber.U = 100 * x.


(* ===================================================================== *)
(** ** Sample worlds *)
(* ===================================================================== *)

Definition wallet_A : Wallet :=
  {| w_id := "A"; w_userId := "alice"; w_balance := 50000;
     w_walletType := "Basic"; w_transactionLimit := 100000 |}.

Definition wallet_B : Wallet :=
  {| w_id := "B"; w_userId := "bob"; w_balance := 0;
     w_walletType := "Premium"; w_transactionLimit := 1000000 |}.

(** Wallet A holds 500.00 (limit 1000.00), wallet B holds 0.00 (limit
    10000.00); no transactions yet, no mutex taken; the calls to the
    outside behave as [fs] says. *)
Definition sample_world (fs : list (option string)) : World :=
  {| wallets := <["A" := wallet_A]> (<["B" := wallet_B]> ∅);
     transactions := []; journal := []; faults := fs;
     walletLocks := ∅; walletCounter := 2 |}.

Definition empty_world : World :=
  {| wallets := ∅; transactions := []; journal := []; faults := [];
     walletLocks := ∅; walletCounter := 0 |}.

Global Arguments wp {A} m Q s : simpl never.

(* ===================================================================== *)
(** * Facts *)
(* ===================================================================== *)

(** ** Rounding *)

Module JsNumberFacts.
Import JsNumber.

Lemma U_pos : 0 < U.
Proof. unfold U, unit_exp. apply Z.pow_pos_nonneg; lia. Qed.

(** The rounded quotient is within half a divisor of the dividend. *)
Lemma round_nearest_even_error (n d : Z) :
  0 < d → 2 * Z.abs (round_nearest_even n d * d - n) ≤ d.
Proof.
  intros Hd. unfold round_nearest_even.
  pose proof (Z.div_mod n d ltac:(lia)) as Hdm.
  pose proof (Z.mod_pos_bound n d Hd) as Hr.
  destruct (Z.compare_spec (2 * (n mod d)) d) as [He|Hl|Hg].
  - destruct (Z.even (n / d)); nia.
  - nia.
  - nia.
Qed.

Lemma round_nearest_even_nonneg (n d : Z) :
  0 ≤ n → 0 < d → 0 ≤ round_nearest_even n d.
Proof.
  intros Hn Hd. unfold round_nearest_even.
  pose proof (Z.div_pos n d Hn Hd).
  destruct (2 * (n mod d) ?= d); [destruct (Z.even (n / d))| |]; lia.
Qed.

Lemma round53_nonneg (n d : Z) : 0 ≤ n → 0 < d → 0 ≤ round53 n d.
Proof.
  intros Hn Hd. unfold round53.
  set (k := Z.max 0 (Z.log2 (n / d) - 52)).
  assert (0 < 2 ^ k) by (apply Z.pow_pos_nonneg; lia).
  pose proof (round_nearest_even_nonneg n (d * 2 ^ k) Hn ltac:(nia)). nia.
Qed.

(** Below [2^(53+K)] units the spacing of doubles is at most [2^K]
    units, so rounding moves a value by at most half of that. *)
Lemma round53_error (n d K : Z) :
  0 ≤ n → 0 < d → 0 ≤ K → n < d * 2 ^ (53 + K) →
  2 * Z.abs (round53 n d * d - n) ≤ d * 2 ^ K.
Proof.
  intros Hn Hd HK Hlt. unfold round53.
  set (k := Z.max 0 (Z.log2 (n / d) - 52)).
  assert (Hk : 0 ≤ k ≤ K).
  { split; [lia|]. subst k. apply Z.max_lub; [lia|].
    destruct (Z.eq_dec (n / d) 0) as [->|Hnz]; [simpl; lia|].
    assert (0 < n / d) by (pose proof (Z.div_pos n d Hn Hd); lia).
    assert (n / d < 2 ^ (53 + K)) by (apply Z.div_lt_upper_bound; lia).
    assert (Z.log2 (n / d) < 53 + K) by (apply Z.log2_lt_pow2; lia). lia. }
  assert (Hpk : 0 < 2 ^ k) by (apply Z.pow_pos_nonneg; lia).
  assert (HpK : 2 ^ k ≤ 2 ^ K) by (apply Z.pow_le_mono_r; lia).
  pose proof (round_nearest_even_error n (d * 2 ^ k) ltac:(nia)) as He.
  replace (round_nearest_even n (d * 2 ^ k) * 2 ^ k * d)
    with (round_nearest_even n (d * 2 ^ k) * (d * 2 ^ k)) by ring.
  nia.
Qed.

Lemma fl_error (n d K : Z) :
  0 < d → 0 ≤ K → Z.abs n < d * 2 ^ (53 + K) →
  2 * Z.abs (fl n d * d - n) ≤ d * 2 ^ K.
Proof.
  intros Hd HK Hlt. unfold fl. destruct (Z.ltb_spec n 0).
  - pose proof (round53_error (- n) d K ltac:(lia) Hd HK ltac:(lia)). lia.
  - pose proof (round53_error n d K ltac:(lia) Hd HK ltac:(lia)). lia.
Qed.

Lemma fl_nonneg (n d : Z) : 0 ≤ n → 0 < d → 0 ≤ fl n d.
Proof.
  intros Hn Hd. unfold fl. destruct (Z.ltb_spec n 0); [lia|].
  by apply round53_nonneg.
Qed.

Lemma toFixed2_nonneg (x : Z) : 0 ≤ x → 0 ≤ toFixed2 x.
Proof.
  intros Hx. unfold toFixed2. pose proof U_pos.
  destruct (Z.ltb_spec x 0); [lia|]. apply Z.div_pos; lia.
Qed.

(** [toFixed(2)] of a Number less than half a hundredth away from
    [c / 100] prints [c]. *)
Lemma toFixed2_near (x c : Z) :
  2 * Z.abs (100 * x - c * U) < U → toFixed2 x = c.
Proof.
  intros Hnear. unfold toFixed2. pose proof U_pos as HU.
  destruct (Z.ltb_spec x 0).
  - assert ((200 * - x + U) / (2 * U) = - c); [|lia].
    symmetry. apply (Z.div_unique _ _ _ (200 * - x + U - 2 * U * - c)); lia.
  - symmetry. apply (Z.div_unique _ _ _ (200 * x + U - 2 * U * c)); lia.
Qed.

Lemma P_pos : 0 < P.
Proof. unfold P. apply Z.pow_pos_nonneg; lia. Qed.

Lemma U_eq_P : U = 1048576 * P.
Proof. reflexivity. Qed.

Lemma pow_1055 : 2 ^ 1055 = 2 * P.
Proof. reflexivity. Qed.

Lemma pow_1056 : 2 ^ 1056 = 4 * P.
Proof. reflexivity. Qed.

Lemma pow_53_1055 : 2 ^ (53 + 1055) = 17179869184 * U.
Proof. reflexivity. Qed.

Lemma pow_53_1056 : 2 ^ (53 + 1056) = 34359738368 * U.
Proof. reflexivity. Qed.

(** A value of a [decimal(12,2)] column is read with an error of at
    most [2^-20]. *)
Lemma number_of_decimal_error (c : Z) :
  Z.abs c < 10 ^ 12 →
  Z.abs (100 * number_of_decimal c - c * U) ≤ 100 * P.
Proof.
  intros Hc. unfold number_of_decimal.
  pose proof U_pos as HU.
  assert (10 ^ 12 = 1000000000000) as E12 by reflexivity.
  pose proof (fl_error (c * U) 100 1055 ltac:(lia) ltac:(lia)) as He.
  rewrite pow_53_1055, pow_1055 in He.
  assert (Z.abs (c * U) < 100 * (17179869184 * U)) by nia.
  specialize (He ltac:(assumption)). lia.
Qed.

(** Adding two Numbers read from two-decimal values and printing the sum
    with [toFixed(2)] gives the exact decimal sum. *)
Lemma toFixed2_add_exact (b a : Z) :
  Z.abs b < 10 ^ 12 → Z.abs a < 10 ^ 12 →
  toFixed2 (add (parseFloat b) (number_of_decimal a)) = b + a.
Proof.
  intros Hb Ha. apply toFixed2_near. unfold add, parseFloat.
  pose proof (number_of_decimal_error b Hb) as Eb.
  pose proof (number_of_decimal_error a Ha) as Ea.
  set (x := number_of_decimal b) in *. set (y := number_of_decimal a) in *.
  assert (10 ^ 12 = 1000000000000) as E12 by reflexivity.
  pose proof P_pos as HP. pose proof U_eq_P as HU.
  pose proof (fl_error (x + y) 1 1056 ltac:(lia) ltac:(lia)) as Es.
  rewrite pow_53_1056, pow_1056 in Es.
  assert (Z.abs b * U ≤ 1000000000000 * U)
    by (apply Z.mul_le_mono_nonneg_r; lia).
  assert (Z.abs a * U ≤ 1000000000000 * U)
    by (apply Z.mul_le_mono_nonneg_r; lia).
  assert (Z.abs (x + y) < 1 * (34359738368 * U)) by lia.
  specialize (Es ltac:(assumption)). lia.
Qed.

Lemma toFixed2_sub_exact (b a : Z) :
  Z.abs b < 10 ^ 12 → Z.abs a < 10 ^ 12 →
  toFixed2 (sub (parseFloat b) (number_of_decimal a)) = b - a.
Proof.
  intros Hb Ha. apply toFixed2_near. unfold sub, parseFloat.
  pose proof (number_of_decimal_error b Hb) as Eb.
  pose proof (number_of_decimal_error a Ha) as Ea.
  set (x := number_of_decimal b) in *. set (y := number_of_decimal a) in *.
  assert (10 ^ 12 = 1000000000000) as E12 by reflexivity.
  pose proof P_pos as HP. pose proof U_eq_P as HU.
  pose proof (fl_error (x - y) 1 1056 ltac:(lia) ltac:(lia)) as Es.
  rewrite pow_53_1056, pow_1056 in Es.
  assert (Z.abs b * U ≤ 1000000000000 * U)
    by (apply Z.mul_le_mono_nonneg_r; lia).
  assert (Z.abs a * U ≤ 1000000000000 * U)
    by (apply Z.mul_le_mono_nonneg_r; lia).
  assert (Z.abs (x - y) < 1 * (34359738368 * U)) by lia.
  specialize (Es ltac:(assumption)). lia.
Qed.

(** Reading two-decimal values keeps their order, strictly. *)
Lemma number_of_decimal_lt (a b : Z) :
  Z.abs a < 10 ^ 12 → Z.abs b < 10 ^ 12 →
  a < b → number_of_decimal a < number_of_decimal b.
Proof.
  intros Ha Hb Hab.
  pose proof (number_of_decimal_error b Hb) as Eb.
  pose proof (number_of_decimal_error a Ha) as Ea.
  pose proof P_pos as HP. pose proof U_eq_P as HU. nia.
Qed.

Lemma lt_number_of_decimal (a b : Z) :
  Z.abs a < 10 ^ 12 → Z.abs b < 10 ^ 12 →
  lt (number_of_decimal a) (number_of_decimal b) = bool_decide (a < b).
Proof.
  intros Ha Hb. unfold lt. case_bool_decide as Hab.
  - apply Z.ltb_lt. by apply number_of_decimal_lt.
  - apply Z.ltb_ge. destruct (Z.eq_dec a b) as [->|Hne]; [lia|].
    pose proof (number_of_decimal_lt b a Hb Ha ltac:(lia)). lia.
Qed.

Lemma gt_number_of_decimal (a b : Z) :
  Z.abs a < 10 ^ 12 → Z.abs b < 10 ^ 12 →
  gt (number_of_decimal a) (number_of_decimal b) = bool_decide (b < a).
Proof. intros Ha Hb. unfold gt. by apply (lt_number_of_decimal b a). Qed.

Lemma number_of_decimal_nonneg (c : Z) : 0 ≤ c → 0 ≤ number_of_decimal c.
Proof.
  intros Hc. unfold number_of_decimal. pose proof U_pos.
  apply fl_nonneg; nia.
Qed.

Lemma number_of_decimal_positive (c : Z) :
  0 < c → c < 10 ^ 12 → positive (number_of_decimal c) = true.
Proof.
  intros Hc Hb. unfold positive. apply Z.ltb_lt.
  pose proof (number_of_decimal_error c ltac:(lia)) as Ec.
  pose proof P_pos as HP. pose proof U_eq_P as HU. nia.
Qed.

(** A credit of a positive amount and a debit of an amount the balance
    covers never print a negative balance. *)
Lemma toFixed2_add_nonneg (b : Z) (amount : Z) :
  0 ≤ b → 0 ≤ amount → 0 ≤ toFixed2 (add (parseFloat b) amount).
Proof.
  intros Hb Ha. apply toFixed2_nonneg. unfold add, parseFloat.
  pose proof (number_of_decimal_nonneg b Hb). apply fl_nonneg; lia.
Qed.

Lemma toFixed2_sub_nonneg (x amount : Z) :
  lt x amount = false → 0 ≤ toFixed2 (sub x amount).
Proof.
  unfold lt. intros Hge%Z.ltb_ge. apply toFixed2_nonneg. unfold sub.
  apply fl_nonneg; lia.
Qed.

(** The two checks, on values with two decimals. *)
Lemma lt_balance_amount (b a : Z) :
  Z.abs b < 10 ^ 12 → Z.abs a < 10 ^ 12 →
  lt (parseFloat b) (number_of_decimal a) = bool_decide (b < a).
Proof. apply lt_number_of_decimal. Qed.

Lemma gt_amount_limit (a l : Z) :
  Z.abs a < 10 ^ 12 → Z.abs l < 10 ^ 12 →
  gt (number_of_decimal a) (parseFloat l) = bool_decide (l < a).
Proof. apply gt_number_of_decimal. Qed.

(** The two limits the factory assigns are Numbers exactly. *)
Lemma parseFloat_basic_limit : parseFloat 100000 = dyadic 1000 0.
Proof. vm_compute. reflexivity. Qed.

Lemma parseFloat_premium_limit : parseFloat 1000000 = dyadic 10000 0.
Proof. vm_compute. reflexivity. Qed.
End JsNumberFacts.

(** From here on the arithmetic of Numbers is used through the lemmas
    above only. *)
Global Opaque JsNumber.U JsNumber.toFixed2 JsNumber.add JsNumber.sub
  JsNumber.parseFloat JsNumber.number_of_decimal.

(** ** Rules for computations *)

Section Rules.
Context {A B : Type}.

Lemma wp_ret (a : A) Q s : Q (Returned a) s → wp (ret a) Q s.
Proof. done. Qed.

Lemma wp_throw (e : Exn) (Q : Outcome A → World → Prop) s :
  Q (Threw e) s → wp (throw e) Q s.
Proof. done. Qed.

Lemma wp_gets (f : World → A) Q s : Q (Returned (f s)) s → wp (gets f) Q s.
Proof. done. Qed.

Lemma wp_bind (m : M A) (k : A → M B) Q s :
  wp m (fun r s' =>
          match r with
          | Returned a => wp (k a) Q s'
          | Threw e => Q (Threw e) s'
          | Blocked => Q Blocked s'
          end) s →
  wp (bind m k) Q s.
Proof. unfold wp, bind. by destruct (m s) as [[a|e|] s']. Qed.

Lemma wp_try_catch (m : M A) (h : Exn → M A) Q s :
  wp m (fun r s' =>
          match r with
          | Threw e => wp (h e) Q s'
          | _ => Q r s'
          end) s →
  wp (try_catch m h) Q s.
Proof. unfold wp, try_catch. by destruct (m s) as [[a|e|] s']. Qed.

Lemma wp_mono (m : M A) (Q Q' : Outcome A → World → Prop) s :
  wp m Q s → (∀ r s', Q r s' → Q' r s') → wp m Q' s.
Proof. unfold wp. auto. Qed.

Lemma wp_run (m : M A) Q s r s' : wp m Q s → m s = (r, s') → Q r s'.
Proof. unfold wp. intros H E. by rewrite E in H. Qed.

Lemma wp_result (m : M A) s r s' :
  wp m (fun r0 s0 => r0 = r ∧ s0 = s') s → m s = (r, s').
Proof. unfold wp. destruct (m s) as [r0 s0]. simpl. by intros [-> ->]. Qed.
End Rules.

Lemma wp_modify (f : World → World) Q s :
  Q (Returned tt) (f s) → wp (modify f) Q s.
Proof. done. Qed.

Lemma set_faults_same s : set_faults (faults s) s = s.
Proof. by destruct s. Qed.

(** A call to the outside either goes through or throws; either way only
    the fault schedule moves on. *)
Lemma wp_io (Q : Outcome unit → World → Prop) s :
  (∀ fs, Q (Returned tt) (set_faults fs s)) →
  (∀ fs msg, Q (Threw (JsError msg)) (set_faults fs s)) →
  wp io Q s.
Proof.
  intros Hok Hfail. unfold wp, io.
  destruct (faults s) as [|[msg|] rest] eqn:E; simpl; auto.
  specialize (Hok (faults s)). by rewrite set_faults_same in Hok.
Qed.

Lemma io_goes_through s :
  goes_through (faults s) → io s = (Returned tt, set_faults (tail (faults s)) s).
Proof.
  unfold io. destruct (faults s) as [|[msg|] rest] eqn:E; simpl; try done.
  intros _. by rewrite <- E, set_faults_same.
Qed.

Lemma io_fault s msg rest :
  faults s = Some msg :: rest → io s = (Threw (JsError msg), set_faults rest s).
Proof. unfold io. by intros ->. Qed.

(** ** The three writes *)

Section Writes.
Import DatabaseStorage.

Lemma wp_updateWalletBalance walletId newBalance old Q s :
  wallets s !! walletId = Some old →
  (∀ fs msg, Q (Threw (JsError msg)) (set_faults fs s)) →
  (fits_decimal_12_2 newBalance = true →
   ∀ fs msg, Q (Threw (JsError msg))
               (set_faults fs (balance_written walletId newBalance old s))) →
  (fits_decimal_12_2 newBalance = true →
   ∀ fs, Q (Returned (with_balance newBalance old))
           (set_faults fs (balance_written walletId newBalance old s))) →
  wp (updateWalletBalance walletId newBalance) Q s.
Proof.
  intros Hrow Hdb Hser Hok. unfold updateWalletBalance.
  apply wp_bind, wp_io; [|done]. intros fs.
  destruct (fits_decimal_12_2 newBalance) eqn:Hfit; simpl.
  - apply wp_bind, wp_gets. simpl. rewrite Hrow.
    apply wp_bind, wp_modify, wp_bind, wp_io.
    + intros fs'. apply wp_ret, (Hok eq_refl).
    + intros fs' msg. apply (Hser eq_refl).
  - apply wp_throw, Hdb.
Qed.

Lemma wp_createTransaction i Q s :
  (∀ fs msg, Q (Threw (JsError msg)) (set_faults fs s)) →
  (∀ fs, Q (Returned (new_row i s)) (set_faults fs (row_inserted i s))) →
  wp (createTransaction i) Q s.
Proof.
  intros Hfail Hok. unfold createTransaction.
  apply wp_bind, wp_io; [|done]. intros fs.
  apply wp_bind, wp_gets, wp_bind, wp_modify, wp_bind, wp_ret, wp_ret, Hok.
Qed.

Lemma wp_updateTransactionStatus transactionId status errorMessage old Q s :
  transactions s !! transactionId = Some old →
  (∀ fs msg, Q (Threw (JsError msg)) (set_faults fs s)) →
  (∀ fs, Q (Returned (Some (with_status status errorMessage old)))
           (set_faults fs (status_set transactionId status errorMessage old s))) →
  wp (updateTransactionStatus transactionId status errorMessage) Q s.
Proof.
  intros Hrow Hfail Hok. unfold updateTransactionStatus.
  apply wp_bind, wp_io; [|done]. intros fs.
  apply wp_bind, wp_gets. simpl. rewrite Hrow.
  apply wp_bind, wp_modify, wp_ret, Hok.
Qed.


Lemma lookup_new_row i s s' later :
  transactions s' = (transactions s ++ [new_row i s]) ++ later →
  transactions s' !! t_id (new_row i s) = Some (new_row i s).
Proof.
  intros ->. simpl. rewrite lookup_app_l; [by rewrite lookup_app_r, Nat.sub_diag|].
  rewrite length_app. simpl. lia.
Qed.

Lemma lookup_new_row_now i s s' :
  transactions s' = transactions s ++ [new_row i s] →
  transactions s' !! t_id (new_row i s) = Some (new_row i s).
Proof. intros E. apply (lookup_new_row i s s' []). by rewrite app_nil_r. Qed.
End Writes.

(** ** The lock table and the callbacks *)

Section LockIndependence.
Context {A B : Type}.

Lemma li_ret (a : A) : lock_independent (ret a).
Proof. done. Qed.

Lemma li_throw (e : Exn) : lock_independent (@throw A e).
Proof. done. Qed.

Lemma li_gets (f : World → A) :
  (∀ locks s, f (with_locks locks s) = f s) → lock_independent (gets f).
Proof. intros Hf locks s. unfold gets. simpl. by rewrite Hf. Qed.

Lemma li_bind (m : M A) (k : A → M B) :
  lock_independent m → (∀ a, lock_independent (k a)) →
  lock_independent (bind m k).
Proof.
  intros Hm Hk locks s. unfold bind.
  destruct (Hm locks s) as [-> Hnb].
  destruct (m s) as [[a|e|] s']; simpl in *; try done.
  apply Hk.
Qed.

Lemma li_try_catch (m : M A) (h : Exn → M A) :
  lock_independent m → (∀ e, lock_independent (h e)) →
  lock_independent (try_catch m h).
Proof.
  intros Hm Hh locks s. unfold try_catch.
  destruct (Hm locks s) as [-> Hnb].
  destruct (m s) as [[a|e|] s']; simpl in *; try done.
  apply Hh.
Qed.
End LockIndependence.

Lemma li_modify (f : World → World) :
  (∀ locks s, f (with_locks locks s) = with_locks locks (f s)) →
  lock_independent (modify f).
Proof. intros Hf locks s. unfold modify. simpl. by rewrite Hf. Qed.

Lemma li_io : lock_independent io.
Proof.
  intros locks s. unfold io. simpl.
  by destruct (faults s) as [|[msg|] rest].
Qed.

Lemma with_locks_same s : with_locks (walletLocks s) s = s.
Proof. by destruct s. Qed.

Lemma li_keeps_locks {A : Type} (m : M A) s :
  lock_independent m → walletLocks (m s).2 = walletLocks s.
Proof.
  intros Hm. destruct (Hm (walletLocks s) s) as [E _].
  rewrite with_locks_same in E. by rewrite E at 1.
Qed.

Section Callbacks.
Import DatabaseStorage.

Local Ltac li_step :=
  first [ apply li_ret | apply li_throw | apply li_io
        | apply li_gets; done | apply li_modify; done
        | apply li_bind; [|intros ?] | apply li_try_catch; [|intros ?] ].

Lemma li_updateWalletBalance walletId newBalance :
  lock_independent (updateWalletBalance walletId newBalance).
Proof.
  unfold updateWalletBalance, selectWallet, serializeWallet.
  li_step; [li_step|]. destruct (negb _); [li_step|].
  li_step; [li_step|]. destruct a0; repeat li_step.
Qed.

Lemma li_createTransaction i : lock_independent (createTransaction i).
Proof. unfold createTransaction, logTransaction. repeat li_step. Qed.

Lemma li_updateTransactionStatus transactionId status errorMessage :
  lock_independent (updateTransactionStatus transactionId status errorMessage).
Proof.
  unfold updateTransactionStatus.
  li_step; [li_step|]. li_step; [li_step|]. destruct a0; repeat li_step.
Qed.

Lemma li_mark_failed transactionId error :
  lock_independent (mark_failed transactionId error).
Proof.
  unfold mark_failed. li_step; [apply li_updateTransactionStatus|li_step].
Qed.

Lemma li_deposit_exclusive walletId amount paymentMode description :
  lock_independent (deposit_exclusive walletId amount paymentMode description).
Proof.
  unfold deposit_exclusive, selectWallet.
  li_step; [li_step|]. destruct a as [wallet|]; [|li_step].
  destruct (JsNumber.gt _ _); [li_step|].
  li_step; [apply li_createTransaction|].
  li_step; [|apply li_mark_failed].
  unfold deposit_attempt.
  li_step; [apply li_updateWalletBalance|].
  li_step; [apply li_updateTransactionStatus|li_step].
Qed.

Lemma li_transfer_exclusive fromWalletId toWalletId toUserId amount description :
  lock_independent
    (transfer_exclusive fromWalletId toWalletId toUserId amount description).
Proof.
  unfold transfer_exclusive, selectWallet.
  li_step; [li_step|]. li_step; [li_step|].
  destruct a as [fromWallet|]; [|li_step].
  destruct a0 as [toWallet|]; [|li_step].
  destruct (JsNumber.lt _ _); [li_step|].
  destruct (JsNumber.gt _ _); [li_step|].
  li_step; [apply li_createTransaction|].
  li_step; [|apply li_mark_failed].
  unfold transfer_attempt.
  li_step; [apply li_updateWalletBalance|].
  li_step; [apply li_updateWalletBalance|].
  li_step; [apply li_createTransaction|].
  li_step; [apply li_updateTransactionStatus|li_step].
Qed.
End Callbacks.

(** ** Entering and leaving the mutexes *)

Lemma isLocked_with_locks lock locks s :
  isLocked lock (with_locks locks s)
  = match locks !! lock with Some true => true | _ => false end.
Proof. done. Qed.

Lemma runExclusive_held {A : Type} lock (callback : M A) s :
  isLocked lock s = true → runExclusive lock callback s = (Blocked, s).
Proof. intros H. unfold runExclusive, acquire. by rewrite H. Qed.

Lemma runExclusive_free {A : Type} lock (callback : M A) s :
  lock_independent callback → isLocked lock s = false →
  runExclusive lock callback s
  = ((callback s).1, with_locks (<[lock := false]> (walletLocks s)) (callback s).2).
Proof.
  intros Hli Hfree. unfold runExclusive, acquire. rewrite Hfree.
  change (set_walletLocks (insert lock true) s)
    with (with_locks (<[lock := true]> (walletLocks s)) s).
  destruct (Hli (<[lock := true]> (walletLocks s)) s) as [-> Hnb].
  destruct (callback s) as [[a|e|] s']; simpl in *; try done;
    unfold release, with_locks, set_walletLocks; simpl;
    by rewrite insert_insert_eq.
Qed.

(** [getWalletLock] may add an unlocked mutex to the table; no mutex
    changes hands. *)
Lemma getWalletLock_spec walletId s :
  ∃ locks,
    getWalletLock walletId s = (Returned walletId, with_locks locks s) ∧
    (∀ lock, isLocked lock (with_locks locks s) = isLocked lock s) ∧
    is_Some (locks !! walletId).
Proof.
  unfold getWalletLock, bind, gets, modify, ret.
  case_bool_decide as Hknown; simpl.
  - exists (walletLocks s). by rewrite with_locks_same.
  - exists (<[walletId := false]> (walletLocks s)). split; [done|]. split.
    + intros lock. unfold isLocked. simpl.
      rewrite lookup_insert. case_decide as E; [|done]. subst lock.
      destruct (walletLocks s !! walletId) as [b|] eqn:El; [|done].
      exfalso. apply Hknown. by exists b.
    + rewrite lookup_insert_eq. by eexists.
Qed.

Section Lifting.
Import DatabaseStorage.

Lemma deposit_held walletId amount paymentMode description s :
  isLocked walletId s = true →
  ∃ locks, deposit walletId amount paymentMode description s
           = (Blocked, with_locks locks s).
Proof.
  intros Hheld. unfold deposit, bind.
  destruct (getWalletLock_spec walletId s) as (locks & -> & Hsame & _).
  exists locks. apply runExclusive_held. by rewrite Hsame.
Qed.

Lemma deposit_free walletId amount paymentMode description s :
  isLocked walletId s = false →
  ∃ locks,
    deposit walletId amount paymentMode description s
    = ((deposit_exclusive walletId amount paymentMode description s).1,
       with_locks locks
         (deposit_exclusive walletId amount paymentMode description s).2).
Proof.
  intros Hfree. unfold deposit, bind.
  destruct (getWalletLock_spec walletId s) as (locks & -> & Hsame & _).
  rewrite runExclusive_free;
    [|apply li_deposit_exclusive|by rewrite Hsame].
  destruct (li_deposit_exclusive walletId amount paymentMode description locks s)
    as [-> _].
  simpl. by eexists.
Qed.

(** The two mutexes of a transfer. *)
Lemma sort_pair a b :
  sort [a; b] = if String.leb a b then [a; b] else [b; a].
Proof. done. Qed.

Lemma transfer_locks_distinct a b :
  a ≠ b →
  at_index (sort [a; b]) 0 ≠ at_index (sort [a; b]) 1 ∧
  (at_index (sort [a; b]) 0 = a ∧ at_index (sort [a; b]) 1 = b ∨
   at_index (sort [a; b]) 0 = b ∧ at_index (sort [a; b]) 1 = a).
Proof.
  intros Hne. rewrite sort_pair. destruct (String.leb a b); simpl; auto.
Qed.

Lemma transfer_locks_self a :
  at_index (sort [a; a]) 0 = a ∧ at_index (sort [a; a]) 1 = a.
Proof. rewrite sort_pair. by destruct (String.leb a a). Qed.

Lemma nested_free {A : Type} l1 l2 (callback : M A) s :
  lock_independent callback → l1 ≠ l2 →
  isLocked l1 s = false → isLocked l2 s = false →
  ∃ locks,
    runExclusive l1 (runExclusive l2 callback) s
    = ((callback s).1, with_locks locks (callback s).2).
Proof.
  intros Hli Hne H1 H2. unfold runExclusive at 1. unfold acquire. rewrite H1.
  change (set_walletLocks (insert l1 true) s)
    with (with_locks (<[l1 := true]> (walletLocks s)) s).
  rewrite runExclusive_free; [|done|].
  2:{ rewrite isLocked_with_locks, lookup_insert_ne by done. apply H2. }
  destruct (Hli (<[l1 := true]> (walletLocks s)) s) as [-> Hnb].
  simpl. destruct (callback s) as [[a|e|] s']; simpl in *; try done;
    by eexists.
Qed.

Lemma transfer_free fromWalletId toWalletId toUserId amount description s :
  fromWalletId ≠ toWalletId →
  isLocked fromWalletId s = false → isLocked toWalletId s = false →
  ∃ locks,
    transfer fromWalletId toWalletId toUserId amount description s
    = ((transfer_exclusive fromWalletId toWalletId toUserId amount description s).1,
       with_locks locks
         (transfer_exclusive fromWalletId toWalletId toUserId amount description s).2).
Proof.
  intros Hne Hfrom Hto. unfold transfer.
  destruct (transfer_locks_distinct _ _ Hne) as [Hd Hwhich].
  set (l1 := at_index _ 0) in *. set (l2 := at_index _ 1) in *.
  assert (isLocked l1 s = false ∧ isLocked l2 s = false) as [H1 H2]
    by (destruct Hwhich as [[-> ->]|[-> ->]]; done).
  cbv zeta. unfold bind at 1.
  destruct (getWalletLock_spec l1 s) as (locks1 & -> & Hsame1 & _).
  unfold bind at 1.
  destruct (getWalletLock_spec l2 (with_locks locks1 s)) as (locks2 & -> & Hsame2 & _).
  change (with_locks locks2 (with_locks locks1 s)) with (with_locks locks2 s) in *.
  destruct (nested_free l1 l2
              (transfer_exclusive fromWalletId toWalletId toUserId amount description)
              (with_locks locks2 s)) as [locks E].
  - apply li_transfer_exclusive.
  - done.
  - by rewrite Hsame2, Hsame1.
  - by rewrite Hsame2, Hsame1.
  - rewrite E.
    destruct (li_transfer_exclusive fromWalletId toWalletId toUserId amount
                description locks2 s) as [-> _].
    simpl. by eexists.
Qed.

(** Every call of [transfer] either never settles, leaving the tables
    as they are, or does what the callback does. *)
Lemma transfer_cases fromWalletId toWalletId toUserId amount description s :
  ∃ locks r s',
    transfer fromWalletId toWalletId toUserId amount description s
    = (r, with_locks locks s') ∧
    (r = Blocked ∧ s' = s ∨
     (r, s') = transfer_exclusive fromWalletId toWalletId toUserId amount
                 description s).
Proof.
  unfold transfer. set (l1 := at_index _ 0). set (l2 := at_index _ 1).
  cbv zeta. unfold bind at 1.
  destruct (getWalletLock_spec l1 s) as (locks1 & -> & Hsame1 & _).
  unfold bind at 1.
  destruct (getWalletLock_spec l2 (with_locks locks1 s)) as (locks2 & -> & Hsame2 & _).
  change (with_locks locks2 (with_locks locks1 s)) with (with_locks locks2 s) in *.
  set (callback := transfer_exclusive _ _ _ _ _).
  destruct (isLocked l1 (with_locks locks2 s)) eqn:H1.
  { exists locks2, Blocked, s. split; [by apply runExclusive_held|by left]. }
  unfold runExclusive at 1. unfold acquire. rewrite H1.
  change (set_walletLocks (insert l1 true) (with_locks locks2 s))
    with (with_locks (<[l1 := true]> locks2) s).
  destruct (isLocked l2 (with_locks (<[l1 := true]> locks2) s)) eqn:H2.
  { rewrite runExclusive_held by done.
    exists (<[l1 := true]> locks2), Blocked, s. split; [done|by left]. }
  rewrite runExclusive_free; [|apply li_transfer_exclusive|done].
  destruct (li_transfer_exclusive fromWalletId toWalletId toUserId amount
              description (<[l1 := true]> locks2) s) as [E Hnb].
  fold callback in E, Hnb. rewrite E. simpl.
  destruct (callback s) as [[a|e|] s']; simpl in *; try done.
  - eexists _, (Returned a), s'. split; [reflexivity|by right].
  - eexists _, (Threw e), s'. split; [reflexivity|by right].
Qed.

Lemma deposit_cases walletId amount paymentMode description s :
  ∃ locks r s',
    deposit walletId amount paymentMode description s
    = (r, with_locks locks s') ∧
    (r = Blocked ∧ s' = s ∨
     (r, s') = deposit_exclusive walletId amount paymentMode description s).
Proof.
  destruct (isLocked walletId s) eqn:H.
  - destruct (deposit_held walletId amount paymentMode description s H) as [l E].
    exists l, Blocked, s. split; [done|by left].
  - destruct (deposit_free walletId amount paymentMode description s H) as [l E].
    eexists l, _, _. split; [apply E|]. right. by destruct (deposit_exclusive _ _ _ _ _).
Qed.

(** A transfer from a wallet to itself takes the wallet's mutex and
    then waits for it. *)
Lemma transfer_self_blocked walletId toUserId amount description s :
  isLocked walletId s = false →
  ∃ locks,
    transfer walletId walletId toUserId amount description s
    = (Blocked, with_locks locks s) ∧
    locks !! walletId = Some true.
Proof.
  intros Hfree. unfold transfer.
  destruct (transfer_locks_self walletId) as [-> ->].
  cbv zeta. unfold bind at 1.
  destruct (getWalletLock_spec walletId s) as (locks1 & -> & Hsame1 & _).
  unfold bind at 1.
  destruct (getWalletLock_spec walletId (with_locks locks1 s))
    as (locks2 & -> & Hsame2 & _).
  change (with_locks locks2 (with_locks locks1 s)) with (with_locks locks2 s) in *.
  unfold runExclusive at 1. unfold acquire.
  rewrite Hsame2, Hsame1, Hfree.
  rewrite runExclusive_held.
  - exists (<[walletId := true]> locks2). split; [done|].
    by rewrite lookup_insert_eq.
  - unfold isLocked. simpl. by rewrite lookup_insert_eq.
Qed.
End Lifting.

(** ** What the callbacks do to the tables *)

Section CallbackEffects.
Import DatabaseStorage.

(** The handler ends by throwing and leaves the wallets alone. *)
Lemma wp_mark_failed transactionId error
    (Q : Outcome (option Transaction) → World → Prop) s :
  (∀ e s', wallets s' = wallets s → Q (Threw e) s') →
  wp (mark_failed transactionId error) Q s.
Proof.
  intros HQ. unfold mark_failed, updateTransactionStatus.
  apply wp_bind, wp_bind, wp_io; [|intros; by apply HQ]. intros fs.
  apply wp_bind, wp_gets. cbv beta.
  destruct (transactions _ !! _).
  - apply wp_bind, wp_modify, wp_ret, wp_throw. by apply HQ.
  - apply wp_ret, wp_throw. by apply HQ.
Qed.

(** Whatever happens, a deposit leaves the wallets as they were or
    with the one new balance written. *)
Lemma deposit_exclusive_wallets walletId amount paymentMode description s :
  wp (deposit_exclusive walletId amount paymentMode description)
     (fun _ s' =>
        wallets s' = wallets s ∨
        ∃ wallet,
          wallets s !! walletId = Some wallet ∧
          JsNumber.gt amount (JsNumber.parseFloat (w_transactionLimit wallet)) = false ∧
          wallets s'
          = <[walletId :=
                with_balance
                  (JsNumber.toFixed2
                     (JsNumber.add (JsNumber.parseFloat (w_balance wallet)) amount))
                  wallet]> (wallets s)) s.
Proof.
  unfold deposit_exclusive.
  apply wp_bind, wp_gets. cbv beta.
  destruct (wallets s !! walletId) as [wallet|] eqn:Hrow;
    [|apply wp_throw; by left].
  destruct (JsNumber.gt _ _) eqn:Hlimit; [apply wp_throw; by left|].
  apply wp_bind, wp_createTransaction; [intros; by left|].
  intros fs. apply wp_try_catch. unfold deposit_attempt. apply wp_bind.
  eapply (wp_updateWalletBalance _ _ wallet); [done| | |].
  - intros fs' msg. apply wp_mark_failed. intros e s' ->. by left.
  - intros _ fs' msg. apply wp_mark_failed. intros e s' ->. right. by exists wallet.
  - intros _ fs'. apply wp_bind.
    eapply wp_updateTransactionStatus; [by eapply lookup_new_row_now| |].
    + intros fs'' msg. apply wp_mark_failed. intros e s' ->. right. by exists wallet.
    + intros fs''. apply wp_ret. right. by exists wallet.
Qed.

(** Whatever happens, a transfer leaves the wallets as they were, or
    with the debit written, or with the debit and then the credit
    written. *)
Lemma transfer_exclusive_wallets fromWalletId toWalletId toUserId amount description s :
  wp (transfer_exclusive fromWalletId toWalletId toUserId amount description)
     (fun _ s' =>
        wallets s' = wallets s ∨
        ∃ fromWallet toWallet,
          wallets s !! fromWalletId = Some fromWallet ∧
          wallets s !! toWalletId = Some toWallet ∧
          JsNumber.lt (JsNumber.parseFloat (w_balance fromWallet)) amount = false ∧
          let debited :=
            <[fromWalletId :=
                with_balance
                  (JsNumber.toFixed2
                     (JsNumber.sub (JsNumber.parseFloat (w_balance fromWallet)) amount))
                  fromWallet]> (wallets s) in
          wallets s' = debited ∨
          ∃ credited,
            debited !! toWalletId = Some credited ∧
            wallets s'
            = <[toWalletId :=
                  with_balance
                    (JsNumber.toFixed2
                       (JsNumber.add (JsNumber.parseFloat (w_balance toWallet)) amount))
                    credited]> debited) s.
Proof.
  unfold transfer_exclusive.
  apply wp_bind, wp_gets. cbv beta. apply wp_bind, wp_gets. cbv beta.
  destruct (wallets s !! fromWalletId) as [fromWallet|] eqn:Hfrom;
    [|apply wp_throw; by left].
  destruct (wallets s !! toWalletId) as [toWallet|] eqn:Hto;
    [|apply wp_throw; by left].
  destruct (JsNumber.lt _ _) eqn:Hfunds; [apply wp_throw; by left|].
  destruct (JsNumber.gt _ _) eqn:Hlimit; [apply wp_throw; by left|].
  apply wp_bind, wp_createTransaction; [intros; by left|].
  intros fs. apply wp_try_catch. unfold transfer_attempt. apply wp_bind.
  cbv zeta.
  assert (∃ credited,
            <[fromWalletId :=
                with_balance
                  (JsNumber.toFixed2
                     (JsNumber.sub (JsNumber.parseFloat (w_balance fromWallet)) amount))
                  fromWallet]> (wallets s) !! toWalletId = Some credited)
    as [credited Hcredited].
  { rewrite lookup_insert. case_decide; eauto. }
  eapply (wp_updateWalletBalance _ _ fromWallet); [done| | |].
  { intros fs' msg. apply wp_mark_failed. intros e s' ->. by left. }
  { intros _ fs' msg. apply wp_mark_failed. intros e s' ->.
    right. exists fromWallet, toWallet. repeat split; try done. by left. }
  intros _ fs'. apply wp_bind.
  eapply (wp_updateWalletBalance _ _ credited); [done| | |].
  { intros fs'' msg. apply wp_mark_failed. intros e s' ->.
    right. exists fromWallet, toWallet. repeat split; try done. by left. }
  { intros _ fs'' msg. apply wp_mark_failed. intros e s' ->.
    right. exists fromWallet, toWallet. repeat split; try done.
    right. by exists credited. }
  intros _ fs''. apply wp_bind, wp_createTransaction.
  { intros fs3 msg. apply wp_mark_failed. intros e s' ->.
    right. exists fromWallet, toWallet. repeat split; try done.
    right. by exists credited. }
  intros fs3. apply wp_bind.
  eapply wp_updateTransactionStatus; [by eapply lookup_new_row| |].
  { intros fs4 msg. apply wp_mark_failed. intros e s' ->.
    right. exists fromWallet, toWallet. repeat split; try done.
    right. by exists credited. }
  intros fs4. apply wp_ret.
  right. exists fromWallet, toWallet. repeat split; try done.
  right. by exists credited.
Qed.


End CallbackEffects.

(** ** Runs in which every call to the outside goes through *)

Section Quiet.
Import DatabaseStorage.

Lemma createTransaction_goes_through i s :
  goes_through (faults s) →
  createTransaction i s
  = (Returned (new_row i s), set_faults (tail (faults s)) (row_inserted i s)).
Proof.
  intros Hgo. unfold createTransaction, bind at 1.
  by rewrite io_goes_through.
Qed.

Lemma createTransaction_fault i s msg rest :
  faults s = Some msg :: rest →
  createTransaction i s = (Threw (JsError msg), set_faults rest s).
Proof.
  intros Hf. unfold createTransaction, bind at 1.
  by rewrite (io_fault s msg rest).
Qed.

Lemma updateTransactionStatus_goes_through transactionId status errorMessage old s :
  goes_through (faults s) →
  transactions s !! transactionId = Some old →
  updateTransactionStatus transactionId status errorMessage s
  = (Returned (Some (with_status status errorMessage old)),
     set_faults (tail (faults s))
       (status_set transactionId status errorMessage old s)).
Proof.
  intros Hgo Hrow. unfold updateTransactionStatus, bind at 1.
  rewrite io_goes_through by done.
  unfold bind, gets. simpl. by rewrite Hrow.
Qed.

Lemma updateWalletBalance_goes_through walletId newBalance old s :
  goes_through (faults s) → goes_through (tail (faults s)) →
  wallets s !! walletId = Some old →
  fits_decimal_12_2 newBalance = true →
  updateWalletBalance walletId newBalance s
  = (Returned (with_balance newBalance old),
     set_faults (tail (tail (faults s)))
       (balance_written walletId newBalance old s)).
Proof.
  intros Hgo Hgo' Hrow Hfit. unfold updateWalletBalance, bind at 1.
  rewrite io_goes_through by done. rewrite Hfit. simpl.
  unfold bind at 1, selectWallet, gets. simpl. rewrite Hrow.
  unfold bind at 1, modify. unfold bind at 1, serializeWallet.
  rewrite io_goes_through by done. done.
Qed.

(** The handler, when its update goes through. *)
Lemma mark_failed_goes_through transactionId error old s :
  goes_through (faults s) →
  transactions s !! transactionId = Some old →
  mark_failed transactionId error s
  = (Threw error,
     set_faults (tail (faults s))
       (status_set transactionId "failed" (Some (message error)) old s)).
Proof.
  intros Hgo Hrow. unfold mark_failed, bind at 1.
  by rewrite (updateTransactionStatus_goes_through _ _ _ old).
Qed.

(** The handler, when its update throws as well. *)
Lemma mark_failed_fault transactionId error msg rest s :
  faults s = Some msg :: rest →
  mark_failed transactionId error s = (Threw (JsError msg), set_faults rest s).
Proof.
  intros Hf. unfold mark_failed, bind at 1, updateTransactionStatus, bind at 1.
  by rewrite (io_fault s msg rest).
Qed.
End Quiet.

(* ===================================================================== *)
(** * The claims *)
(* ===================================================================== *)

Section Rejections.
Import DatabaseStorage.

Lemma transfer_exclusive_insufficient
    fromWalletId toWalletId toUserId amount description fromWallet toWallet s :
  wallets s !! fromWalletId = Some fromWallet →
  wallets s !! toWalletId = Some toWallet →
  JsNumber.lt (JsNumber.parseFloat (w_balance fromWallet)) amount = true →
  transfer_exclusive fromWalletId toWalletId toUserId amount description s
  = (Threw (InsufficientFundsException
              (JsNumber.parseFloat (w_balance fromWallet)) amount fromWalletId), s).
Proof.
  intros Hfrom Hto Hlt.
  unfold transfer_exclusive, bind, selectWallet, gets, throw.
  by rewrite Hfrom, Hto, Hlt.
Qed.

End Rejections.

(** C2. A transfer between two distinct wallets that are both in the store
    and whose mutexes are free, for an amount that exceeds the sender's
    balance (the stored balance read as a Number, compared as the code
    compares it), throws [InsufficientFundsException] carrying the balance
    read, the requested amount and the sender's wallet id; the wallets and
    the transactions table are as before and nothing was written. *)
Theorem transfer_insufficient_funds
    (s : World) (fromWalletId toWalletId toUserId : string) (amount : number)
    (description : option string) (fromWallet toWallet : Wallet) :
  fromWalletId ≠ toWalletId →
  isLocked fromWalletId s = false →
  isLocked toWalletId s = false →
  wallets s !! fromWalletId = Some fromWallet →
  wallets s !! toWalletId = Some toWallet →
  JsNumber.lt (JsNumber.parseFloat (w_balance fromWallet)) amount = true →
  ∃ s',
    DatabaseStorage.transfer fromWalletId toWalletId toUserId amount description s
    = (Threw (InsufficientFundsException
                (JsNumber.parseFloat (w_balance fromWallet)) amount fromWalletId), s') ∧
    wallets s' = wallets s ∧
    transactions s' = transactions s ∧
    journal s' = journal s ∧
    faults s' = faults s.
Proof.
  intros Hne Hl1 Hl2 Hfrom Hto Hlt.
  destruct (transfer_free fromWalletId toWalletId toUserId amount description s
              Hne Hl1 Hl2) as [locks ->].
  rewrite (transfer_exclusive_insufficient _ _ _ _ _ fromWallet toWallet) by done.
  by eexists.
Qed.

Lemma transfer_insufficient_funds_witness :
  ∃ s',
    DatabaseStorage.transfer "A" "B" "bob" (JsNumber.number_of_decimal 60000) None
      (sample_world [])
    = (Threw (InsufficientFundsException
                (JsNumber.parseFloat 50000) (JsNumber.number_of_decimal 60000) "A"), s') ∧
    wallets s' = wallets (sample_world []) ∧
    transactions s' = [] ∧ journal s' = [] ∧ faults s' = [].
Proof.
  apply (transfer_insufficient_funds (sample_world []) "A" "B" "bob"
           (JsNumber.number_of_decimal 60000) None wallet_A wallet_B).
  - discriminate.
  - reflexivity.
  - reflexivity.
  - reflexivity.
  - reflexivity.
  - vm_compute. reflexivity.
Defined.




Section Provisioning.
Import DatabaseStorage.

Lemma factory_known tier limit s :
  tier = "Basic" ∧ limit = 100000 ∨ tier = "Premium" ∧ limit = 1000000 →
  WalletFactory.createWallet tier s
  = (Returned {| WalletFactory.walletType := tier;
                 WalletFactory.transactionLimit := limit |},
     set_walletCounter (S (walletCounter s)) s).
Proof. by intros [[-> ->]|[-> ->]]. Qed.

Lemma factory_unknown tier s :
  tier ≠ "Basic" → tier ≠ "Premium" →
  WalletFactory.createWallet tier s
  = (Threw (JsError (String.append "Unknown wallet type: " tier)),
     set_walletCounter (S (walletCounter s)) s).
Proof.
  intros H1%String.eqb_neq H2%String.eqb_neq.
  unfold WalletFactory.createWallet, bind, modify. by rewrite H1, H2.
Qed.
Lemma createWallet_known newId userId tier limit s :
  tier = "Basic" ∧ limit = 100000 ∨ tier = "Premium" ∧ limit = 1000000 →
  wallets s !! newId = None →
  goes_through (faults s) →
  let wallet :=
    {| w_id := newId; w_userId := userId; w_balance := 0;
       w_walletType := tier; w_transactionLimit := limit |} in
  ∃ r fs,
    createWallet newId userId tier s
    = (r, set_faults fs
            (log_write (InsertWallet wallet)
               (set_wallets (insert newId wallet)
                  (set_walletCounter (S (walletCounter s)) s)))) ∧
    (goes_through (tail (faults s)) → r = Returned wallet).
Proof.
  intros Htier Hnew Hgo. cbv zeta.
  unfold createWallet, bind at 1.
  rewrite (factory_known tier limit) by done.
  unfold bind at 1. rewrite io_goes_through by done.
  unfold bind at 1, gets. simpl. rewrite Hnew.
  rewrite bool_decide_eq_false_2 by (by intros [? ?]).
  unfold bind at 1, modify. unfold bind at 1, serializeWallet.
  match goal with
  | |- context [io ?st] =>
      destruct (faults st) as [|[msg|] rest] eqn:Hrest;
        [ rewrite io_goes_through by (by rewrite Hrest)
        | rewrite (io_fault st msg rest) by done
        | rewrite io_goes_through by (by rewrite Hrest) ]
  end; simpl in *; eexists _, _; (split; [reflexivity|]); try done.
  rewrite Hrest. by intros [].
Qed.

Lemma createWallet_unknown newId userId tier s :
  tier ≠ "Basic" → tier ≠ "Premium" →
  createWallet newId userId tier s
  = (Threw (JsError (String.append "Unknown wallet type: " tier)),
     set_walletCounter (S (walletCounter s)) s).
Proof.
  intros H1 H2. unfold createWallet, bind at 1. by rewrite factory_unknown.
Qed.
End Provisioning.

(** C9. [createWallet] with tier [Basic] or [Premium], when the id drawn
    for the row is new and the insert goes through, writes a wallet with
    balance 0.00 and the limit of the table (1000.00, 10000.00), and
    returns it when the serializer goes through as well.  With any other
    tier it throws an [Error] naming the tier and the wallets are as
    before. *)
Theorem createWallet_provisions
    (s : World) (newId userId tier : string) :
  (∀ limit,
     tier = "Basic" ∧ limit = 100000 ∨ tier = "Premium" ∧ limit = 1000000 →
     wallets s !! newId = None →
     goes_through (faults s) →
     let wallet :=
       {| w_id := newId; w_userId := userId; w_balance := 0;
          w_walletType := tier; w_transactionLimit := limit |} in
     let run := DatabaseStorage.createWallet newId userId tier s in
     wallets run.2 = <[newId := wallet]> (wallets s) ∧
     journal run.2 = journal s ++ [InsertWallet wallet] ∧
     (goes_through (tail (faults s)) → run.1 = Returned wallet)) ∧
  (tier ≠ "Basic" → tier ≠ "Premium" →
   let run := DatabaseStorage.createWallet newId userId tier s in
   run.1 = Threw (JsError (String.append "Unknown wallet type: " tier)) ∧
   wallets run.2 = wallets s ∧
   journal run.2 = journal s).
Proof.
  split.
  - intros limit Htier Hnew Hgo.
    destruct (createWallet_known newId userId tier limit s Htier Hnew Hgo)
      as (r & fs & E & Hr).
    cbv zeta. by rewrite E.
  - intros H1 H2. cbv zeta. by rewrite createWallet_unknown.
Qed.

Lemma createWallet_provisions_witness :
  (let wallet :=
     {| w_id := "C"; w_userId := "carol"; w_balance := 0;
        w_walletType := "Premium"; w_transactionLimit := 1000000 |} in
   let run := DatabaseStorage.createWallet "C" "carol" "Premium" (sample_world []) in
   wallets run.2 = <["C" := wallet]> (wallets (sample_world [])) ∧
   journal run.2 = [] ++ [InsertWallet wallet] ∧
   (goes_through (tail []) → run.1 = Returned wallet)) ∧
  (let run := DatabaseStorage.createWallet "C" "carol" "Gold" (sample_world []) in
   run.1 = Threw (JsError "Unknown wallet type: Gold") ∧
   wallets run.2 = wallets (sample_world []) ∧
   journal run.2 = []).
Proof.
  destruct (createWallet_provisions (sample_world []) "C" "carol" "Premium") as [Hknown _].
  destruct (createWallet_provisions (sample_world []) "C" "carol" "Gold") as [_ Hunknown].
  split.
  - apply (Hknown 1000000).
    + right. split; reflexivity.
    + reflexivity.
    + exact I.
  - apply Hunknown; discriminate.
Defined.

(** ** Transfers and deposits that return *)

Section Returned.
Import DatabaseStorage.




Lemma wallets_transferred_self walletId toUserId amount description wallet s :
  wallets (transferred walletId walletId toUserId amount description
             wallet wallet s)
  = <[walletId :=
        with_balance
          (JsNumber.toFixed2
             (JsNumber.add (JsNumber.parseFloat (w_balance wallet)) amount))
          wallet]> (wallets s).
Proof.
  unfold transferred. simpl. rewrite decide_True by done.
  by rewrite insert_insert_eq.
Qed.

Lemma journal_transferred fromWalletId toWalletId toUserId amount description
    fromWallet toWallet s :
  journal (transferred fromWalletId toWalletId toUserId amount description
             fromWallet toWallet s)
  = journal s ++
    [ InsertTransactionRow
        (new_row (out_request fromWalletId toWalletId toUserId amount description) s);
      SetBalance fromWalletId
        (JsNumber.toFixed2
           (JsNumber.sub (JsNumber.parseFloat (w_balance fromWallet)) amount));
      SetBalance toWalletId
        (JsNumber.toFixed2
           (JsNumber.add (JsNumber.parseFloat (w_balance toWallet)) amount));
      InsertTransactionRow
        {| t_id := S (length (transactions s));
           t_walletId := toWalletId; t_amount := amount;
           t_type := "transfer_in"; t_paymentMode := "WalletBalance";
           t_status := "success"; t_description := description;
           t_recipientWalletId := Some fromWalletId;
           t_recipientUserId := None; t_errorMessage := None |};
      SetStatus (length (transactions s)) "success" None ].
Proof.
  unfold transferred. simpl. unfold new_row. simpl.
  rewrite length_app. simpl. rewrite Nat.add_1_r.
  by rewrite <- !app_assoc.
Qed.

End Returned.






(** ** The rows an operation can leave *)

Section Rows.
Import DatabaseStorage.

(** Each wallet row after a deposit is a row from before, or the
    deposited wallet with the sum printed by [toFixed(2)]. *)
Lemma deposit_rows walletId amount paymentMode description s id w' :
  wallets (deposit walletId amount paymentMode description s).2 !! id = Some w' →
  wallets s !! id = Some w' ∨
  ∃ wallet,
    id = walletId ∧ wallets s !! walletId = Some wallet ∧
    w_balance w'
    = JsNumber.toFixed2
        (JsNumber.add (JsNumber.parseFloat (w_balance wallet)) amount).
Proof.
  destruct (deposit_cases walletId amount paymentMode description s)
    as (locks & r & s0 & -> & Hcase).
  change (wallets (r, with_locks locks s0).2) with (wallets s0).
  destruct Hcase as [[_ ->]|Hcb]; [by left|].
  pose proof (deposit_exclusive_wallets walletId amount paymentMode description s)
    as Hwp.
  eapply wp_run in Hwp; [|by symmetry].
  destruct Hwp as [->|(wallet & Hrow & _ & ->)]; [by left|].
  rewrite lookup_insert. case_decide as E; [|by left].
  intros [= <-]. right. by exists wallet.
Qed.

(** Each wallet row after a transfer is a row from before, or the
    sender with the difference printed by [toFixed(2)], or the
    recipient with the sum printed by [toFixed(2)], both computed from
    the balances read at the start. *)
Lemma transfer_rows fromWalletId toWalletId toUserId amount description s id w' :
  wallets (transfer fromWalletId toWalletId toUserId amount description s).2 !! id
  = Some w' →
  wallets s !! id = Some w' ∨
  ∃ fromWallet toWallet,
    wallets s !! fromWalletId = Some fromWallet ∧
    wallets s !! toWalletId = Some toWallet ∧
    JsNumber.lt (JsNumber.parseFloat (w_balance fromWallet)) amount = false ∧
    (id = fromWalletId ∧
     w_balance w'
     = JsNumber.toFixed2
         (JsNumber.sub (JsNumber.parseFloat (w_balance fromWallet)) amount) ∨
     id = toWalletId ∧
     w_balance w'
     = JsNumber.toFixed2
         (JsNumber.add (JsNumber.parseFloat (w_balance toWallet)) amount)).
Proof.
  destruct (transfer_cases fromWalletId toWalletId toUserId amount description s)
    as (locks & r & s0 & -> & Hcase).
  change (wallets (r, with_locks locks s0).2) with (wallets s0).
  destruct Hcase as [[_ ->]|Hcb]; [by left|].
  pose proof (transfer_exclusive_wallets fromWalletId toWalletId toUserId
                amount description s) as Hwp.
  eapply wp_run in Hwp; [|by symmetry].
  destruct Hwp as [->|(fw & tw & Hfrom & Hto & Hlt & Hw)]; [by left|].
  cbv zeta in Hw. destruct Hw as [->|(credited & Hcredited & ->)].
  - rewrite lookup_insert. case_decide as E; [|by left].
    intros [= <-]. right. exists fw, tw. repeat split; try done. by left.
  - rewrite lookup_insert. case_decide as E.
    + intros [= <-]. right. exists fw, tw. repeat split; try done. by right.
    + rewrite lookup_insert. case_decide as E'; [|by left].
      intros [= <-]. right. exists fw, tw. repeat split; try done. by left.
Qed.
End Rows.



(** ** Balances stay non-negative *)

Section NonNegative.

Lemma perform_nonneg op s :
  admissible op → nonneg_balances s → nonneg_balances (perform op s).2.
Proof.
  intros Hop Hs id w' Hw'. destruct op as [walletId amount mode d|f t u amount d];
    simpl in Hop, Hw'.
  - apply deposit_rows in Hw' as [?|(w & -> & Hw & ->)]; [by eapply Hs|].
    apply JsNumberFacts.toFixed2_add_nonneg; [by eapply Hs|].
    unfold JsNumber.positive in Hop. lia.
  - destruct Hop as [Hpos _].
    apply transfer_rows in Hw' as [?|(fw & tw & Hfw & Htw & Hlt & Hw)];
      [by eapply Hs|].
    destruct Hw as [[-> ->]|[-> ->]].
    + by apply JsNumberFacts.toFixed2_sub_nonneg.
    + apply JsNumberFacts.toFixed2_add_nonneg; [by eapply Hs|].
      unfold JsNumber.positive in Hpos. lia.
Qed.

Lemma observations_nonneg ops s :
  Forall admissible ops → nonneg_balances s →
  Forall nonneg_balances (observations ops s).
Proof.
  intros Hops. revert s. induction Hops as [|op ops Hop _ IH]; intros s Hs.
  - constructor.
  - simpl. pose proof (perform_nonneg op s Hop Hs). constructor; auto.
Qed.
End NonNegative.

(** C7. Start from any store in which every wallet holds 0.00, as wallets
    are created.  After each operation of any sequence of deposits of
    positive amounts and transfers of positive amounts between distinct
    wallets -- whether the operation returned, was rejected, or failed on
    a store fault part-way -- every stored balance is at least zero. *)
Theorem balances_never_negative (s0 : World) (ops : list Operation) :
  (∀ walletId w, wallets s0 !! walletId = Some w → w_balance w = 0) →
  Forall admissible ops →
  ∀ s, s ∈ observations ops s0 →
       ∀ walletId w, wallets s !! walletId = Some w → 0 ≤ w_balance w.
Proof.
  intros Hzero Hops s Hs.
  assert (nonneg_balances s0) as H0.
  { intros id w Hw. by rewrite (Hzero id w Hw). }
  pose proof (observations_nonneg ops s0 Hops H0) as Hall.
  rewrite Forall_forall in Hall. by apply Hall.
Qed.

Lemma balances_never_negative_witness :
  let start :=
    {| wallets := <["A" := DatabaseStorage.with_balance 0 wallet_A]>
                    (<["B" := wallet_B]> ∅);
       transactions := []; journal := [];
       faults := [None; None; None; None; None; None; Some "connection lost"];
       walletLocks := ∅; walletCounter := 2 |} in
  let ops :=
    [ Deposit "A" (JsNumber.number_of_decimal 50000) "UPI" None;
      Transfer "A" "B" "bob" (JsNumber.number_of_decimal 50000) None;
      Transfer "B" "A" "alice" (JsNumber.number_of_decimal 70000) None ] in
  Forall admissible ops ∧
  (∀ s, s ∈ observations ops start →
        ∀ walletId w, wallets s !! walletId = Some w → 0 ≤ w_balance w).
Proof.
  cbv zeta.
  assert (Forall admissible
            [ Deposit "A" (JsNumber.number_of_decimal 50000) "UPI" None;
              Transfer "A" "B" "bob" (JsNumber.number_of_decimal 50000) None;
              Transfer "B" "A" "alice" (JsNumber.number_of_decimal 70000) None ])
    as Hops.
  { repeat constructor; (try by vm_compute); discriminate. }
  split; [exact Hops|].
  apply balances_never_negative; [|exact Hops].
  intros walletId w. simpl. rewrite lookup_insert. case_decide.
  - by intros [= <-].
  - rewrite lookup_insert. case_decide; [by intros [= <-]|].
    by rewrite lookup_empty.
Defined.

(** ** Failures after the pending record exists *)

Section Failures.
Import DatabaseStorage.

Lemma createTransaction_returned i s tx s1 :
  createTransaction i s = (Returned tx, s1) →
  tx = new_row i s ∧
  wallets s1 = wallets s ∧
  transactions s1 = transactions s ++ [new_row i s].
Proof.
  intros Hrun.
  assert (wp (createTransaction i)
            (fun r s' => ∀ t, r = Returned t →
                              t = new_row i s ∧ wallets s' = wallets s ∧
                              transactions s' = transactions s ++ [new_row i s]) s)
    as Hwp.
  { apply wp_createTransaction; [done|]. by intros fs t [= <-]. }
  eapply wp_run in Hwp; [|done]. by apply Hwp.
Qed.

(** The update of a balance does not touch the transactions table. *)
Lemma wp_updateWalletBalance_transactions walletId newBalance
    (Q : Outcome Wallet → World → Prop) s :
  (∀ r s', transactions s' = transactions s → Q r s') →
  wp (updateWalletBalance walletId newBalance) Q s.
Proof.
  intros HQ. unfold updateWalletBalance, selectWallet, serializeWallet.
  apply wp_bind, wp_io; [|intros; by apply HQ]. intros fs.
  destruct (negb _); [apply wp_throw; by apply HQ|].
  apply wp_bind, wp_gets. cbv beta.
  destruct (wallets _ !! _); [|apply wp_throw; by apply HQ].
  apply wp_bind, wp_modify, wp_bind, wp_io; intros.
  - apply wp_ret. by apply HQ.
  - by apply HQ.
Qed.

(** An update of a status that throws has changed nothing. *)
Lemma wp_updateTransactionStatus_threw transactionId status errorMessage
    (Q : Outcome (option Transaction) → World → Prop) s :
  (∀ e s', transactions s' = transactions s → Q (Threw e) s') →
  (∀ x s', Q (Returned x) s') →
  wp (updateTransactionStatus transactionId status errorMessage) Q s.
Proof.
  intros Hthrew Hret. unfold updateTransactionStatus.
  apply wp_bind, wp_io; [|intros; by apply Hthrew]. intros fs.
  apply wp_bind, wp_gets. cbv beta.
  destruct (transactions _ !! _).
  - apply wp_bind, wp_modify, wp_ret, Hret.
  - apply wp_ret, Hret.
Qed.

(** When the [try] block of a deposit throws, the pending record is as
    it was inserted. *)
Lemma deposit_attempt_threw walletId amount wallet tx s1 e s2 :
  deposit_attempt walletId amount wallet tx s1 = (Threw e, s2) →
  transactions s2 = transactions s1.
Proof.
  intros Hrun.
  assert (wp (deposit_attempt walletId amount wallet tx)
            (fun r s' => ∀ e, r = Threw e → transactions s' = transactions s1) s1)
    as Hwp.
  { unfold deposit_attempt.
    apply wp_bind, wp_updateWalletBalance_transactions.
    intros [w|e0|] s' Hs'; [|done..].
    apply wp_bind, wp_updateTransactionStatus_threw.
    - intros e0 s'' -> _ _. done.
    - intros x s''. by apply wp_ret. }
  eapply wp_run in Hwp; [|done]. by apply (Hwp e).
Qed.

(** When the [try] block of a transfer throws, the rows that were in
    the table are as they were. *)
Lemma transfer_attempt_threw fromWalletId toWalletId amount description
    currentBalance toWallet tx s1 e s2 :
  transfer_attempt fromWalletId toWalletId amount description currentBalance
    toWallet tx s1 = (Threw e, s2) →
  ∃ later, transactions s2 = transactions s1 ++ later.
Proof.
  intros Hrun.
  assert (wp (transfer_attempt fromWalletId toWalletId amount description
                currentBalance toWallet tx)
            (fun r s' => ∀ e, r = Threw e →
                              ∃ later, transactions s' = transactions s1 ++ later) s1)
    as Hwp.
  { unfold transfer_attempt.
    apply wp_bind, wp_updateWalletBalance_transactions.
    intros [w|e0|] s' Hs'; [|intros; exists []; by rewrite app_nil_r|done].
    apply wp_bind, wp_updateWalletBalance_transactions.
    intros [w'|e0|] s'' Hs'';
      [|intros; exists []; rewrite app_nil_r; congruence|done].
    apply wp_bind, wp_createTransaction.
    { intros fs msg _ _. exists []. rewrite app_nil_r. simpl. congruence. }
    intros fs. apply wp_bind, wp_updateTransactionStatus_threw.
    - intros e0 s3 -> _ _. eexists. simpl. by rewrite Hs'', Hs'.
    - intros x s3. by apply wp_ret. }
  eapply wp_run in Hwp; [|done]. by apply (Hwp e).
Qed.

Lemma deposit_exclusive_failure walletId amount paymentMode description
    wallet tx s s1 e s2 :
  wallets s !! walletId = Some wallet →
  JsNumber.gt amount (JsNumber.parseFloat (w_transactionLimit wallet)) = false →
  createTransaction (deposit_request walletId amount paymentMode description) s
  = (Returned tx, s1) →
  deposit_attempt walletId amount wallet tx s1 = (Threw e, s2) →
  goes_through (faults s2) →
  deposit_exclusive walletId amount paymentMode description s
  = (Threw e,
     set_faults (tail (faults s2))
       (status_set (t_id tx) "failed" (Some (message e)) tx s2)).
Proof.
  intros Hrow Hgt Hcreate Hattempt Hgo.
  pose proof (createTransaction_returned _ _ _ _ Hcreate) as (Htx & _ & Hrows).
  pose proof (deposit_attempt_threw _ _ _ _ _ _ _ Hattempt) as Hkept.
  unfold deposit_exclusive, bind at 1, selectWallet, gets.
  rewrite Hrow, Hgt. unfold bind at 1. rewrite Hcreate.
  unfold try_catch. rewrite Hattempt.
  apply mark_failed_goes_through; [done|].
  rewrite Hkept, Htx. by apply lookup_new_row_now.
Qed.

Lemma transfer_exclusive_failure fromWalletId toWalletId toUserId amount
    description fromWallet toWallet tx s s1 e s2 :
  wallets s !! fromWalletId = Some fromWallet →
  wallets s !! toWalletId = Some toWallet →
  JsNumber.lt (JsNumber.parseFloat (w_balance fromWallet)) amount = false →
  JsNumber.gt amount (JsNumber.parseFloat (w_transactionLimit fromWallet)) = false →
  createTransaction
    (out_request fromWalletId toWalletId toUserId amount description) s
  = (Returned tx, s1) →
  transfer_attempt fromWalletId toWalletId amount description
    (JsNumber.parseFloat (w_balance fromWallet)) toWallet tx s1 = (Threw e, s2) →
  goes_through (faults s2) →
  transfer_exclusive fromWalletId toWalletId toUserId amount description s
  = (Threw e,
     set_faults (tail (faults s2))
       (status_set (t_id tx) "failed" (Some (message e)) tx s2)).
Proof.
  intros Hfrom Hto Hlt Hgt Hcreate Hattempt Hgo.
  pose proof (createTransaction_returned _ _ _ _ Hcreate) as (Htx & _ & Hrows).
  pose proof (transfer_attempt_threw _ _ _ _ _ _ _ _ _ _ Hattempt)
    as [later Hkept].
  unfold transfer_exclusive, bind at 1, selectWallet, gets.
  unfold bind at 1. rewrite Hfrom, Hto. cbv zeta. rewrite Hlt, Hgt.
  unfold bind at 1. rewrite Hcreate.
  unfold try_catch. rewrite Hattempt.
  apply mark_failed_goes_through; [done|].
  rewrite Htx. apply lookup_new_row with (later := later).
  by rewrite Hkept, Hrows.
Qed.
Lemma deposit_exclusive_double_fault walletId amount paymentMode description
    wallet tx s s1 e s2 msg rest :
  wallets s !! walletId = Some wallet →
  JsNumber.gt amount (JsNumber.parseFloat (w_transactionLimit wallet)) = false →
  createTransaction (deposit_request walletId amount paymentMode description) s
  = (Returned tx, s1) →
  deposit_attempt walletId amount wallet tx s1 = (Threw e, s2) →
  faults s2 = Some msg :: rest →
  deposit_exclusive walletId amount paymentMode description s
  = (Threw (JsError msg), set_faults rest s2).
Proof.
  intros Hrow Hgt Hcreate Hattempt Hf.
  unfold deposit_exclusive, bind at 1, selectWallet, gets.
  rewrite Hrow, Hgt. unfold bind at 1. rewrite Hcreate.
  unfold try_catch. rewrite Hattempt.
  by apply mark_failed_fault.
Qed.

Lemma transfer_exclusive_double_fault fromWalletId toWalletId toUserId amount
    description fromWallet toWallet tx s s1 e s2 msg rest :
  wallets s !! fromWalletId = Some fromWallet →
  wallets s !! toWalletId = Some toWallet →
  JsNumber.lt (JsNumber.parseFloat (w_balance fromWallet)) amount = false →
  JsNumber.gt amount (JsNumber.parseFloat (w_transactionLimit fromWallet)) = false →
  createTransaction
    (out_request fromWalletId toWalletId toUserId amount description) s
  = (Returned tx, s1) →
  transfer_attempt fromWalletId toWalletId amount description
    (JsNumber.parseFloat (w_balance fromWallet)) toWallet tx s1 = (Threw e, s2) →
  faults s2 = Some msg :: rest →
  transfer_exclusive fromWalletId toWalletId toUserId amount description s
  = (Threw (JsError msg), set_faults rest s2).
Proof.
  intros Hfrom Hto Hlt Hgt Hcreate Hattempt Hf.
  unfold transfer_exclusive, bind at 1, selectWallet, gets.
  unfold bind at 1. rewrite Hfrom, Hto. cbv zeta. rewrite Hlt, Hgt.
  unfold bind at 1. rewrite Hcreate.
  unfold try_catch. rewrite Hattempt.
  by apply mark_failed_fault.
Qed.
End Failures.

(** C5, as amended.  Take a deposit, or a transfer between distinct
    wallets, that passes its checks and creates its pending record, and in
    which the [try] block then throws an error -- whichever step threw it
    and for whatever reason.  When the status update made by the handler
    goes through, the operation throws that same error, and its last write
    has set the record to failed with the error's message; the record is
    in the table, otherwise as it was inserted.  When the handler's own
    update throws, the operation throws the handler's error instead and
    writes nothing more: the record stays as it was inserted, pending. *)
Theorem failure_is_recorded :
  (∀ (s s1 s2 : World) (walletId paymentMode : string) (amount : number)
     (description : option string) (wallet : Wallet) (tx : Transaction) (e : Exn),
     isLocked walletId s = false →
     wallets s !! walletId = Some wallet →
     JsNumber.gt amount (JsNumber.parseFloat (w_transactionLimit wallet)) = false →
     DatabaseStorage.createTransaction
       (DatabaseStorage.deposit_request walletId amount paymentMode description) s
     = (Returned tx, s1) →
     DatabaseStorage.deposit_attempt walletId amount wallet tx s1 = (Threw e, s2) →
     t_status tx = "pending" ∧
     (goes_through (faults s2) →
      ∃ s',
        DatabaseStorage.deposit walletId amount paymentMode description s
        = (Threw e, s') ∧
        transactions s' !! t_id tx
        = Some (DatabaseStorage.with_status "failed" (Some (message e)) tx) ∧
        journal s' = journal s2 ++ [SetStatus (t_id tx) "failed" (Some (message e))] ∧
        wallets s' = wallets s2) ∧
     (∀ msg rest,
        faults s2 = Some msg :: rest →
        ∃ s',
          DatabaseStorage.deposit walletId amount paymentMode description s
          = (Threw (JsError msg), s') ∧
          transactions s' !! t_id tx = Some tx ∧
          journal s' = journal s2 ∧
          wallets s' = wallets s2)) ∧
  (∀ (s s1 s2 : World) (fromWalletId toWalletId toUserId : string) (amount : number)
     (description : option string) (fromWallet toWallet : Wallet)
     (tx : Transaction) (e : Exn),
     fromWalletId ≠ toWalletId →
     isLocked fromWalletId s = false →
     isLocked toWalletId s = false →
     wallets s !! fromWalletId = Some fromWallet →
     wallets s !! toWalletId = Some toWallet →
     JsNumber.lt (JsNumber.parseFloat (w_balance fromWallet)) amount = false →
     JsNumber.gt amount (JsNumber.parseFloat (w_transactionLimit fromWallet)) = false →
     DatabaseStorage.createTransaction
       (DatabaseStorage.out_request fromWalletId toWalletId toUserId amount description) s
     = (Returned tx, s1) →
     DatabaseStorage.transfer_attempt fromWalletId toWalletId amount description
       (JsNumber.parseFloat (w_balance fromWallet)) toWallet tx s1 = (Threw e, s2) →
     t_status tx = "pending" ∧
     (goes_through (faults s2) →
      ∃ s',
        DatabaseStorage.transfer fromWalletId toWalletId toUserId amount description s
        = (Threw e, s') ∧
        transactions s' !! t_id tx
        = Some (DatabaseStorage.with_status "failed" (Some (message e)) tx) ∧
        journal s' = journal s2 ++ [SetStatus (t_id tx) "failed" (Some (message e))] ∧
        wallets s' = wallets s2) ∧
     (∀ msg rest,
        faults s2 = Some msg :: rest →
        ∃ s',
          DatabaseStorage.transfer fromWalletId toWalletId toUserId amount description s
          = (Threw (JsError msg), s') ∧
          transactions s' !! t_id tx = Some tx ∧
          journal s' = journal s2 ∧
          wallets s' = wallets s2)).
Proof.
  split.
  - intros s s1 s2 walletId paymentMode amount description wallet tx e
      Hfree Hrow Hgt Hcreate Hattempt.
    pose proof (createTransaction_returned _ _ _ _ Hcreate) as (Htx & _ & Hrows).
    pose proof (deposit_attempt_threw _ _ _ _ _ _ _ Hattempt) as Hkept.
    destruct (deposit_free walletId amount paymentMode description s Hfree)
      as [locks ->].
    split; [by rewrite Htx|]. split.
    + intros Hgo.
      rewrite (deposit_exclusive_failure _ _ _ _ wallet tx s s1 e s2) by done.
      eexists. split; [reflexivity|]. split; [|done]. simpl.
      apply list_lookup_insert_eq.
      rewrite Hkept, Hrows, Htx, length_app. simpl. lia.
    + intros msg rest Hf.
      rewrite (deposit_exclusive_double_fault _ _ _ _ wallet tx s s1 e s2 msg rest)
        by done.
      eexists. split; [reflexivity|]. split; [|done]. simpl.
      rewrite Hkept, Htx. by apply lookup_new_row_now.
  - intros s s1 s2 fromWalletId toWalletId toUserId amount description
      fromWallet toWallet tx e Hne Hl1 Hl2 Hfrom Hto Hlt Hgt Hcreate Hattempt.
    pose proof (createTransaction_returned _ _ _ _ Hcreate) as (Htx & _ & Hrows).
    pose proof (transfer_attempt_threw _ _ _ _ _ _ _ _ _ _ Hattempt)
      as [later Hkept].
    destruct (transfer_free fromWalletId toWalletId toUserId amount description s
                Hne Hl1 Hl2) as [locks ->].
    split; [by rewrite Htx|]. split.
    + intros Hgo.
      rewrite (transfer_exclusive_failure _ _ _ _ _ fromWallet toWallet tx s s1 e s2)
        by done.
      eexists. split; [reflexivity|]. split; [|done]. simpl.
      apply list_lookup_insert_eq.
      rewrite Hkept, Hrows, Htx, !length_app. simpl. lia.
    + intros msg rest Hf.
      rewrite (transfer_exclusive_double_fault _ _ _ _ _ fromWallet toWallet tx
                 s s1 e s2 msg rest) by done.
      eexists. split; [reflexivity|]. split; [|done]. simpl.
      rewrite Htx. apply lookup_new_row with (later := later).
      by rewrite Hkept, Hrows.
Qed.

Lemma failure_is_recorded_witness :
  (∃ s',
     DatabaseStorage.deposit "A" (JsNumber.number_of_decimal 50000) "UPI" None
       (sample_world [None; None; Some "disk full"])
     = (Threw (JsError "disk full"), s') ∧
     transactions s' !! 0%nat
     = Some {| t_id := 0; t_walletId := "A";
               t_amount := JsNumber.number_of_decimal 50000;
               t_type := "deposit"; t_paymentMode := "UPI"; t_status := "failed";
               t_description := None; t_recipientWalletId := None;
               t_recipientUserId := None; t_errorMessage := Some "disk full" |}) ∧
  (∃ s',
     DatabaseStorage.transfer "A" "B" "bob" (JsNumber.number_of_decimal 50000) None
       (sample_world [None; None; None; Some "connection lost"])
     = (Threw (JsError "connection lost"), s') ∧
     transactions s' !! 0%nat
     = Some {| t_id := 0; t_walletId := "A";
               t_amount := JsNumber.number_of_decimal 50000;
               t_type := "transfer_out"; t_paymentMode := "WalletBalance";
               t_status := "failed";
               t_description := None; t_recipientWalletId := Some "B";
               t_recipientUserId := Some "bob";
               t_errorMessage := Some "connection lost" |}).
Proof.
  destruct failure_is_recorded as [Hdeposit Htransfer]. split.
  - destruct (Hdeposit (sample_world [None; None; Some "disk full"])
                (DatabaseStorage.createTransaction
                   (DatabaseStorage.deposit_request "A"
                      (JsNumber.number_of_decimal 50000) "UPI" None)
                   (sample_world [None; None; Some "disk full"])).2
                (DatabaseStorage.deposit_attempt "A"
                   (JsNumber.number_of_decimal 50000) wallet_A
                   (DatabaseStorage.new_row
                      (DatabaseStorage.deposit_request "A"
                         (JsNumber.number_of_decimal 50000) "UPI" None)
                      (sample_world []))
                   (DatabaseStorage.createTransaction
                      (DatabaseStorage.deposit_request "A"
                         (JsNumber.number_of_decimal 50000) "UPI" None)
                      (sample_world [None; None; Some "disk full"])).2).2
                "A" "UPI" (JsNumber.number_of_decimal 50000) None wallet_A
                (DatabaseStorage.new_row
                   (DatabaseStorage.deposit_request "A"
                      (JsNumber.number_of_decimal 50000) "UPI" None)
                   (sample_world []))
                (JsError "disk full"))
      as (_ & Hmarked & _).
    + reflexivity.
    + reflexivity.
    + vm_compute. reflexivity.
    + vm_compute. reflexivity.
    + vm_compute. reflexivity.
    + match type of Hmarked with
      | ?P → _ => assert P as Hgo by (vm_compute; exact I)
      end.
      destruct (Hmarked Hgo) as (s' & Hrun & Hrow & _).
      exists s'. split; [exact Hrun|exact Hrow].
  - destruct (Htransfer (sample_world [None; None; None; Some "connection lost"])
                (DatabaseStorage.createTransaction
                   (DatabaseStorage.out_request "A" "B" "bob"
                      (JsNumber.number_of_decimal 50000) None)
                   (sample_world [None; None; None; Some "connection lost"])).2
                (DatabaseStorage.transfer_attempt "A" "B"
                   (JsNumber.number_of_decimal 50000) None
                   (JsNumber.parseFloat 50000) wallet_B
                   (DatabaseStorage.new_row
                      (DatabaseStorage.out_request "A" "B" "bob"
                         (JsNumber.number_of_decimal 50000) None)
                      (sample_world []))
                   (DatabaseStorage.createTransaction
                      (DatabaseStorage.out_request "A" "B" "bob"
                         (JsNumber.number_of_decimal 50000) None)
                      (sample_world [None; None; None; Some "connection lost"])).2).2
                "A" "B" "bob" (JsNumber.number_of_decimal 50000) None
                wallet_A wallet_B
                (DatabaseStorage.new_row
                   (DatabaseStorage.out_request "A" "B" "bob"
                      (JsNumber.number_of_decimal 50000) None)
                   (sample_world []))
                (JsError "connection lost"))
      as (_ & Hmarked & _).
    + discriminate.
    + reflexivity.
    + reflexivity.
    + reflexivity.
    + reflexivity.
    + vm_compute. reflexivity.
    + vm_compute. reflexivity.
    + vm_compute. reflexivity.
    + vm_compute. reflexivity.
    + match type of Hmarked with
      | ?P → _ => assert P as Hgo by (vm_compute; exact I)
      end.
      destruct (Hmarked Hgo) as (s' & Hrun & Hrow & _).
      exists s'. split; [exact Hrun|exact Hrow].
Defined.

(** C5 as stated fails when the handler's own status update throws: the
    balance update of this deposit fails with "connection lost", the
    handler's update fails with "still lost"; the caller gets the second
    error and the record is left pending with no message. *)
Lemma double_fault_leaves_record_pending :
  let s := sample_world [None; Some "connection lost"; Some "still lost"] in
  let amount := JsNumber.number_of_decimal 50000 in
  let created :=
    DatabaseStorage.createTransaction
      (DatabaseStorage.deposit_request "A" amount "UPI" None) s in
  let run := DatabaseStorage.deposit "A" amount "UPI" None s in
  (∃ tx, created.1 = Returned tx ∧
         (DatabaseStorage.deposit_attempt "A" amount wallet_A tx created.2).1
         = Threw (JsError "connection lost")) ∧
  run.1 = Threw (JsError "still lost") ∧
  ∃ t, transactions run.2 = [t] ∧ t_status t = "pending" ∧ t_errorMessage t = None.
Proof.
  cbv zeta. split; [|split].
  - eexists. split; vm_compute; reflexivity.
  - vm_compute. reflexivity.
  - eexists. split; [vm_compute; reflexivity|]. split; reflexivity.
Qed.

(** ** A transfer every call of which goes through *)

Section QuietTransfer.
Import DatabaseStorage.

Lemma transfer_exclusive_quiet fromWalletId toWalletId toUserId amount description
    fromWallet toWallet s :
  faults s = [] →
  wallets s !! fromWalletId = Some fromWallet →
  wallets s !! toWalletId = Some toWallet →
  JsNumber.lt (JsNumber.parseFloat (w_balance fromWallet)) amount = false →
  JsNumber.gt amount (JsNumber.parseFloat (w_transactionLimit fromWallet)) = false →
  fits_decimal_12_2
    (JsNumber.toFixed2
       (JsNumber.sub (JsNumber.parseFloat (w_balance fromWallet)) amount)) = true →
  fits_decimal_12_2
    (JsNumber.toFixed2
       (JsNumber.add (JsNumber.parseFloat (w_balance toWallet)) amount)) = true →
  ∃ fs,
    transfer_exclusive fromWalletId toWalletId toUserId amount description s
    = (Returned
         (Some (with_status "success" None
                  (new_row (out_request fromWalletId toWalletId toUserId
                              amount description) s))),
       set_faults fs
         (transferred fromWalletId toWalletId toUserId amount description
            fromWallet toWallet s)).
Proof.
  intros Hf Hfrom Hto Hlt Hgt Hfit1 Hfit2.
  unfold transfer_exclusive, bind at 1, selectWallet, gets.
  unfold bind at 1. rewrite Hfrom, Hto. cbv zeta. rewrite Hlt, Hgt.
  unfold bind at 1.
  rewrite createTransaction_goes_through by (by rewrite Hf).
  unfold try_catch, transfer_attempt. unfold bind at 1.
  rewrite (updateWalletBalance_goes_through _ _ fromWallet);
    [|simpl; by rewrite Hf..|done|done].
  unfold bind at 1.
  rewrite (updateWalletBalance_goes_through _ _
             (if decide (fromWalletId = toWalletId)
              then with_balance
                     (JsNumber.toFixed2
                        (JsNumber.sub (JsNumber.parseFloat (w_balance fromWallet))
                           amount)) fromWallet
              else toWallet));
    [|simpl; by rewrite Hf..| |done].
  2:{ simpl. rewrite lookup_insert. by case_decide. }
  unfold bind at 1.
  rewrite createTransaction_goes_through by (simpl; by rewrite Hf).
  unfold bind at 1.
  rewrite (updateTransactionStatus_goes_through _ _ _
             (new_row (out_request fromWalletId toWalletId toUserId
                         amount description) s));
    [|simpl; by rewrite Hf|by eapply lookup_new_row].
  eexists. reflexivity.
Qed.
End QuietTransfer.

(** C10, as amended.  Let [transfer] be called with the same id [w] for
    both wallets, breaking the precondition the route enforces, for a
    positive amount that is a whole number of hundredths, that the balance
    and the limit of [w] cover, and such that balance plus amount is still
    a value of the column.  (1) Run on its own, with every call to the
    outside going through, the callback raises nothing and returns; its
    writes are the debit and then the credit on the same row, the credit
    computed from the balance read before the debit, so the balance ends
    higher by the amount instead of unchanged.  (2) Through the mutex the
    call never settles: it takes the mutex of [w], waits for it a second
    time, writes nothing and keeps the mutex. *)
Theorem self_transfer_anomaly
    (s : World) (w toUserId : string) (a : decimal) (description : option string)
    (wallet : Wallet) :
  wallets s !! w = Some wallet →
  0 < a ≤ w_balance wallet →
  a ≤ w_transactionLimit wallet →
  w_balance wallet + a < 10 ^ 12 →
  w_transactionLimit wallet < 10 ^ 12 →
  (faults s = [] →
   ∃ x s',
     DatabaseStorage.transfer_exclusive w w toUserId
       (JsNumber.number_of_decimal a) description s = (Returned x, s') ∧
     wallets s'
     = <[w := DatabaseStorage.with_balance (w_balance wallet + a) wallet]> (wallets s) ∧
     ∃ out inn,
       journal s' = journal s ++
                    [ InsertTransactionRow out;
                      SetBalance w (w_balance wallet - a);
                      SetBalance w (w_balance wallet + a);
                      InsertTransactionRow inn;
                      SetStatus (t_id out) "success" None ]) ∧
  (isLocked w s = false →
   ∃ s',
     DatabaseStorage.transfer w w toUserId (JsNumber.number_of_decimal a) description s
     = (Blocked, s') ∧
     wallets s' = wallets s ∧
     transactions s' = transactions s ∧
     journal s' = journal s ∧
     isLocked w s' = true).
Proof.
  intros Hrow Ha Hlimit Hfits Hlim. split.
  - intros Hf.
    assert (10 ^ 12 = 1000000000000) as E12 by reflexivity.
    destruct (transfer_exclusive_quiet w w toUserId (JsNumber.number_of_decimal a)
                description wallet wallet s) as [fs E]; try done.
    + rewrite JsNumberFacts.lt_balance_amount by lia.
      apply bool_decide_eq_false_2. lia.
    + rewrite JsNumberFacts.gt_amount_limit by lia.
      apply bool_decide_eq_false_2. lia.
    + rewrite JsNumberFacts.toFixed2_sub_exact by lia.
      unfold fits_decimal_12_2, decimal_12_2_bound.
      apply andb_true_intro. split; apply Z.ltb_lt; lia.
    + rewrite JsNumberFacts.toFixed2_add_exact by lia.
      unfold fits_decimal_12_2, decimal_12_2_bound.
      apply andb_true_intro. split; apply Z.ltb_lt; lia.
    + eexists _, _. split; [exact E|]. split.
      * change (wallets (set_faults fs ?st)) with (wallets st).
        rewrite wallets_transferred_self.
        by rewrite JsNumberFacts.toFixed2_add_exact by lia.
      * change (journal (set_faults fs ?st)) with (journal st).
        rewrite journal_transferred.
        rewrite JsNumberFacts.toFixed2_add_exact, JsNumberFacts.toFixed2_sub_exact
          by lia.
        eexists (DatabaseStorage.new_row _ s), _. reflexivity.
  - intros Hfree.
    destruct (transfer_self_blocked w toUserId (JsNumber.number_of_decimal a)
                description s Hfree) as (locks & E & Hheld).
    eexists. split; [exact E|]. repeat split.
    rewrite isLocked_with_locks. by rewrite Hheld.
Qed.

Lemma self_transfer_anomaly_witness :
  (∃ x s',
     DatabaseStorage.transfer_exclusive "A" "A" "alice"
       (JsNumber.number_of_decimal 1000) None (sample_world []) = (Returned x, s') ∧
     wallets s'
     = <["A" := DatabaseStorage.with_balance (50000 + 1000) wallet_A]>
         (wallets (sample_world [])) ∧
     ∃ out inn,
       journal s' = journal (sample_world []) ++
                    [ InsertTransactionRow out;
                      SetBalance "A" (50000 - 1000);
                      SetBalance "A" (50000 + 1000);
                      InsertTransactionRow inn;
                      SetStatus (t_id out) "success" None ]) ∧
  (∃ s',
     DatabaseStorage.transfer "A" "A" "alice" (JsNumber.number_of_decimal 1000) None
       (sample_world [])
     = (Blocked, s') ∧
     wallets s' = wallets (sample_world []) ∧
     transactions s' = transactions (sample_world []) ∧
     journal s' = journal (sample_world []) ∧
     isLocked "A" s' = true).
Proof.
  destruct (self_transfer_anomaly (sample_world []) "A" "alice" 1000 None wallet_A)
    as [Hbody Hlocked].
  - reflexivity.
  - simpl. lia.
  - simpl. lia.
  - simpl. lia.
  - simpl. lia.
  - split.
    + apply Hbody. reflexivity.
    + apply Hlocked. reflexivity.
Defined.

(** C10 as stated fails when the amount is not a whole number of
    hundredths: a self-transfer of [2^-10] on a wallet holding 500.00,
    run on its own, returns and leaves the balance at 500.00. *)
Lemma self_transfer_of_a_sliver :
  let amount := JsNumber.dyadic 1 (-10) in
  let run := DatabaseStorage.transfer_exclusive "A" "A" "alice" amount None
               (sample_world []) in
  JsNumber.positive amount = true ∧
  JsNumber.lt (JsNumber.parseFloat (w_balance wallet_A)) amount = false ∧
  JsNumber.gt amount (JsNumber.parseFloat (w_transactionLimit wallet_A)) = false ∧
  (∃ x, run.1 = Returned x) ∧
  wallets run.2 !! "A" = Some wallet_A ∧
  ¬ decimal_is_number (w_balance wallet_A - w_balance wallet_A) amount.
Proof.
  cbv zeta. split; [by vm_compute|]. split; [by vm_compute|].
  split; [by vm_compute|]. split.
  { eexists. vm_compute. reflexivity. }
  split; [by vm_compute|]. vm_compute. discriminate.
Qed.

(** ** Two transfers in opposite directions *)

Section OppositeTransfers.
Import Interleaving.

(** The order of the two mutexes does not depend on the direction. *)
Lemma lock_order_symmetric x y :
  x ≠ y → sort [x; y] = sort [y; x].
Proof.
  intros Hne. rewrite !sort_pair.
  destruct (String.leb x y) eqn:Hxy, (String.leb y x) eqn:Hyx; try done.
  - exfalso. apply Hne. by apply String.leb_antisym.
  - destruct (String.leb_total x y) as [H|H]; congruence.
Qed.

Lemma lock_order_sorted x y :
  String.leb (at_index (sort [x; y]) 0) (at_index (sort [x; y]) 1) = true.
Proof.
  rewrite sort_pair. destruct (String.leb x y) eqn:Hxy; cbn [at_index nth]; [done|].
  destruct (String.leb_total x y) as [H|H]; congruence.
Qed.

Lemma acquire_spec lock s s' :
  acquire lock s = Some s' →
  isLocked lock s = false ∧ isLocked lock s' = true ∧
  ∀ other, other ≠ lock → isLocked other s' = isLocked other s.
Proof.
  unfold acquire. destruct (isLocked lock s) eqn:H; [done|]. intros [= <-].
  split; [done|]. unfold isLocked. simpl. split.
  - by rewrite lookup_insert_eq.
  - intros other Hne. by rewrite lookup_insert_ne.
Qed.

Lemma acquire_free lock s :
  isLocked lock s = false → is_Some (acquire lock s).
Proof. unfold acquire. intros ->. by eexists. Qed.

Lemma release_spec lock s :
  isLocked lock (release lock s) = false ∧
  ∀ other, other ≠ lock → isLocked other (release lock s) = isLocked other s.
Proof.
  unfold isLocked, release. simpl. split.
  - by rewrite lookup_insert_eq.
  - intros other Hne. by rewrite lookup_insert_ne.
Qed.

Lemma called_step_locks l1 l2 s lock :
  isLocked lock (snd ((exec getWalletLock l1; getWalletLock l2) s))
  = isLocked lock s.
Proof.
  unfold bind.
  destruct (getWalletLock_spec l1 s) as (locks1 & -> & Hsame1 & _).
  destruct (getWalletLock_spec l2 (with_locks locks1 s)) as (locks2 & -> & Hsame2 & _).
  simpl. by rewrite Hsame2, Hsame1.
Qed.

Lemma exclusive_step c s :
  ∃ r s',
    DatabaseStorage.transfer_exclusive
      (c_fromWalletId c) (c_toWalletId c) (c_toUserId c) (c_amount c)
      (c_description c) s = (r, s') ∧
    r ≠ Blocked ∧ ∀ lock, isLocked lock s' = isLocked lock s.
Proof.
  pose proof (li_transfer_exclusive (c_fromWalletId c) (c_toWalletId c)
                (c_toUserId c) (c_amount c) (c_description c)) as Hli.
  pose proof (li_keeps_locks _ s Hli) as Hlocks.
  destruct (Hli (walletLocks s) s) as [_ Hnb].
  destruct (DatabaseStorage.transfer_exclusive _ _ _ _ _ s) as [r s'].
  exists r, s'. split; [done|]. split; [done|].
  intros lock. unfold isLocked. simpl in Hlocks. by rewrite Hlocks.
Qed.

(** One step of an activity: it keeps its call, has one step less to take, and
    moves the two mutexes as its new stage says. *)
Lemma activity_step_spec s t s' t' :
  lock1 (call t) ≠ lock2 (call t) →
  activity_step s t = Some (s', t') →
  call t' = call t ∧
  S (remaining t') = remaining t ∧
  (holds_first t = false → holds_first t' = true → isLocked (lock1 (call t)) s = false) ∧
  (holds_second t = false → holds_second t' = true → isLocked (lock2 (call t)) s = false) ∧
  isLocked (lock1 (call t)) s'
  = (if eqb (holds_first t) (holds_first t') then isLocked (lock1 (call t)) s
     else holds_first t') ∧
  isLocked (lock2 (call t)) s'
  = (if eqb (holds_second t) (holds_second t') then isLocked (lock2 (call t)) s
     else holds_second t').
Proof.
  intros Hne. destruct t as [c st]. unfold activity_step. simpl call. simpl stage.
  destruct st as [| | | |r|r|r].
  - intros [= <- <-]. unfold holds_first, holds_second. simpl.
    rewrite !called_step_locks. done.
  - destruct (acquire (lock1 c) s) as [s1|] eqn:Hacq; [|done]. simpl.
    intros [= <- <-]. apply acquire_spec in Hacq as (Hfree & Hheld & Hother).
    unfold holds_first, holds_second. simpl.
    rewrite Hheld, Hother by done. done.
  - destruct (acquire (lock2 c) s) as [s1|] eqn:Hacq; [|done]. simpl.
    intros [= <- <-]. apply acquire_spec in Hacq as (Hfree & Hheld & Hother).
    unfold holds_first, holds_second. simpl.
    rewrite Hheld, Hother by done. done.
  - destruct (exclusive_step c s) as (r & s1 & -> & Hnb & Hsame).
    destruct r as [x|e|]; [| |done]; intros [= <- <-];
      unfold holds_first, holds_second; simpl; by rewrite !Hsame.
  - intros [= <- <-]. destruct (release_spec (lock2 c) s) as [Hrel Hother].
    unfold holds_first, holds_second. simpl.
    rewrite Hrel, Hother by done. done.
  - intros [= <- <-]. destruct (release_spec (lock1 c) s) as [Hrel Hother].
    unfold holds_first, holds_second. simpl.
    rewrite Hrel, Hother by done. done.
  - done.
Qed.

(** An activity can move unless it waits for a locked mutex or has settled. *)
Lemma activity_step_enabled s t :
  settled t = false →
  (holds_first t = false → isLocked (lock1 (call t)) s = false) →
  (holds_second t = false → isLocked (lock2 (call t)) s = false) →
  is_Some (activity_step s t).
Proof.
  destruct t as [c st]. unfold activity_step, settled, holds_first, holds_second.
  simpl. intros Hst H1 H2. destruct st as [| | | |r|r|r]; try done.
  - destruct (acquire_free _ _ (H1 eq_refl)) as [s1 ->]. done.
  - destruct (acquire_free _ _ (H2 eq_refl)) as [s1 ->]. done.
  - destruct (exclusive_step c s) as (r & s1 & -> & Hnb & _).
    by destruct r.
Qed.

Lemma holds_second_first t : holds_second t = true → holds_first t = true.
Proof. unfold holds_second, holds_first. by destruct (stage t). Qed.

(** The bookkeeping of one step, on the booleans alone: [hf], [hs] say
    whether the moving activity held the first and the second mutex before,
    [hf'], [hs'] after; [gf], [gs] are for the other activity; [L1], [L2] are
    the two mutexes before and [L1'], [L2'] after. *)
Lemma stage_bookkeeping (hf hf' gf hs hs' gs L1 L2 L1' L2' : bool) :
  (hs = true → hf = true) → (hs' = true → hf' = true) → (gs = true → gf = true) →
  L1 = hf || gf → L2 = hs || gs → hf && gf = false →
  (hf = false → hf' = true → L1 = false) →
  (hs = false → hs' = true → L2 = false) →
  L1' = (if eqb hf hf' then L1 else hf') →
  L2' = (if eqb hs hs' then L2 else hs') →
  L1' = hf' || gf ∧ L2' = hs' || gs ∧ hf' && gf = false.
Proof.
  intros H1 H2 H3 -> -> Hexcl Hg1 Hg2 -> ->.
  destruct hf, hf', gf, hs, hs', gs; simpl in *;
    try (specialize (H1 eq_refl)); try (specialize (H2 eq_refl));
    try (specialize (H3 eq_refl));
    try (specialize (Hg1 eq_refl eq_refl)); try (specialize (Hg2 eq_refl eq_refl));
    done.
Qed.

(** A step keeps the lock table in agreement with the stages, and uses
    up one of the steps that remain. *)
Lemma step_at_consistent first second i sys sys' :
  first ≠ second →
  consistent first second sys →
  step_at i sys = Some sys' →
  consistent first second sys' ∧
  S (total_remaining sys') = total_remaining sys.
Proof.
  intros Hne (t1 & t2 & Hacts & Ha1 & Ha2 & Hb1 & Hb2 & HL1 & HL2 & Hexcl) Hstep.
  unfold step_at in Hstep. rewrite Hacts in Hstep.
  destruct i as [|[|i]]; simpl in Hstep; [| |done].
  - destruct (activity_step (world sys) t1) as [[s' t1']|] eqn:Hts; [|done].
    simpl in Hstep. injection Hstep as <-.
    apply activity_step_spec in Hts as (Hcall & Hrem & Hg1 & Hg2 & HL1' & HL2');
      [|by rewrite Ha1, Ha2].
    rewrite Ha1 in Hg1, HL1'. rewrite Ha2 in Hg2, HL2'.
    destruct (stage_bookkeeping
                (holds_first t1) (holds_first t1') (holds_first t2)
                (holds_second t1) (holds_second t1') (holds_second t2)
                (isLocked first (world sys)) (isLocked second (world sys))
                (isLocked first s') (isLocked second s'))
      as (HL1n & HL2n & Hexcln);
      try done; try apply holds_second_first.
    split.
    + exists t1', t2. simpl. rewrite Hcall. by repeat split.
    + unfold total_remaining. rewrite Hacts. simpl. lia.
  - destruct (activity_step (world sys) t2) as [[s' t2']|] eqn:Hts; [|done].
    simpl in Hstep. injection Hstep as <-.
    apply activity_step_spec in Hts as (Hcall & Hrem & Hg1 & Hg2 & HL1' & HL2');
      [|by rewrite Hb1, Hb2].
    rewrite Hb1 in Hg1, HL1'. rewrite Hb2 in Hg2, HL2'.
    destruct (stage_bookkeeping
                (holds_first t2) (holds_first t2') (holds_first t1)
                (holds_second t2) (holds_second t2') (holds_second t1)
                (isLocked first (world sys)) (isLocked second (world sys))
                (isLocked first s') (isLocked second s'))
      as (HL1n & HL2n & Hexcln);
      try done; try apply holds_second_first;
      try (by rewrite orb_comm); try (by rewrite andb_comm).
    split.
    + exists t1, t2'. simpl. rewrite Hcall.
      repeat split; try done; by rewrite 1?orb_comm, 1?andb_comm.
    + unfold total_remaining. rewrite Hacts. simpl. lia.
Qed.

(** While an activity has not settled, some activity can move. *)
Lemma consistent_progress first second sys :
  consistent first second sys →
  all_settled sys = false →
  ∃ i sys', step_at i sys = Some sys'.
Proof.
  intros (t1 & t2 & Hacts & Ha1 & Ha2 & Hb1 & Hb2 & HL1 & HL2 & Hexcl) Hnot.
  pose proof (holds_second_first t1) as Hsf1.
  pose proof (holds_second_first t2) as Hsf2.
  unfold all_settled in Hnot. rewrite Hacts in Hnot. simpl in Hnot.
  assert (∀ t, settled t = true → holds_first t = false) as Hdone.
  { intros t. unfold settled, holds_first. by destruct (stage t). }
  pose proof (Hdone t1) as Hd1. pose proof (Hdone t2) as Hd2.
  assert (is_Some (activity_step (world sys) t1) ∨ is_Some (activity_step (world sys) t2))
    as [[[s' t'] Hts]|[[s' t'] Hts]].
  { destruct (holds_first t1) eqn:Hf1.
    - (* the first activity holds the first mutex: it can move *)
      left. apply activity_step_enabled.
      + destruct (settled t1); [by specialize (Hd1 eq_refl)|done].
      + intros ?. congruence.
      + intros Hs1. rewrite Ha2, HL2, Hs1. simpl.
        destruct (holds_second t2) eqn:Hs2; [|done].
        specialize (Hsf2 eq_refl). by rewrite Hsf2 in Hexcl.
    - destruct (holds_first t2) eqn:Hf2.
      + (* the second activity holds the first mutex: it can move *)
        right. apply activity_step_enabled.
        * destruct (settled t2); [by specialize (Hd2 eq_refl)|done].
        * intros ?. congruence.
        * intros Hs2. rewrite Hb2, HL2, Hs2.
          destruct (holds_second t1) eqn:Hs1; [|done].
          by specialize (Hsf1 eq_refl).
      + (* nobody holds a mutex: any activity that has not settled can move *)
        assert (isLocked first (world sys) = false) as HF1 by done.
        assert (isLocked second (world sys) = false) as HF2.
        { rewrite HL2. destruct (holds_second t1) eqn:Hs1;
            [by specialize (Hsf1 eq_refl)|].
          destruct (holds_second t2) eqn:Hs2;
            [by specialize (Hsf2 eq_refl)|done]. }
        destruct (settled t1) eqn:Hst1.
        * right. apply activity_step_enabled.
          -- by destruct (settled t2).
          -- by rewrite Hb1.
          -- by rewrite Hb2.
        * left. apply activity_step_enabled; [done|by rewrite Ha1|by rewrite Ha2]. }
  - exists 0%nat. unfold step_at. rewrite Hacts. simpl. rewrite Hts. simpl. by eexists.
  - exists 1%nat. unfold step_at. rewrite Hacts. simpl. rewrite Hts. simpl. by eexists.
Qed.

Lemma run_consistent first second schedule sys sys' :
  first ≠ second →
  consistent first second sys →
  run schedule sys = Some sys' →
  consistent first second sys' ∧
  (total_remaining sys' + length schedule = total_remaining sys)%nat.
Proof.
  intros Hne. revert sys. induction schedule as [|i rest IH]; intros sys Hc Hrun.
  - simpl in Hrun. injection Hrun as <-. split; [done|simpl; lia].
  - simpl in Hrun. destruct (step_at i sys) as [sys1|] eqn:Hstep; [|done].
    simpl in Hrun.
    destruct (step_at_consistent first second i sys sys1 Hne Hc Hstep) as [Hc1 Hm1].
    destruct (IH sys1 Hc1 Hrun) as [Hc' Hm']. split; [done|]. simpl. lia.
Qed.

Lemma none_remaining_settled first second sys :
  consistent first second sys → total_remaining sys = 0%nat →
  all_settled sys = true.
Proof.
  intros (t1 & t2 & Hacts & _) H0. unfold total_remaining in H0.
  unfold all_settled. rewrite Hacts in *. simpl in *.
  unfold settled, remaining in *.
  destruct (stage t1), (stage t2); simpl in *; done || lia.
Qed.
End OppositeTransfers.

(** ** One call alone *)

Lemma transfer_after_prelude fromWalletId toWalletId toUserId amount description s :
  let l1 := at_index (sort [fromWalletId; toWalletId]) 0 in
  let l2 := at_index (sort [fromWalletId; toWalletId]) 1 in
  DatabaseStorage.transfer fromWalletId toWalletId toUserId amount description s
  = runExclusive l1
      (runExclusive l2
         (DatabaseStorage.transfer_exclusive fromWalletId toWalletId toUserId
            amount description))
      (snd ((exec getWalletLock l1; getWalletLock l2) s)).
Proof.
  cbv zeta. unfold DatabaseStorage.transfer. cbv zeta. unfold bind.
  destruct (getWalletLock_spec (at_index (sort [fromWalletId; toWalletId]) 0) s)
    as (locks1 & -> & _).
  destruct (getWalletLock_spec (at_index (sort [fromWalletId; toWalletId]) 1)
              (with_locks locks1 s)) as (locks2 & -> & _).
  done.
Qed.

Lemma step_solo (t t' : Interleaving.Activity) (s s' : World) :
  Interleaving.activity_step s t = Some (s', t') →
  Interleaving.step_at 0
    {| Interleaving.world := s; Interleaving.activities := [t] |}
  = Some {| Interleaving.world := s'; Interleaving.activities := [t'] |}.
Proof. intros H. unfold Interleaving.step_at. simpl. by rewrite H. Qed.

Lemma run_cons i rest sys :
  Interleaving.run (i :: rest) sys
  = Interleaving.step_at i sys ≫= Interleaving.run rest.
Proof. done. Qed.

Lemma activity_from_await_first (c : Interleaving.TransferCall) (sa : World) :
  isLocked (Interleaving.lock1 c) sa = false →
  isLocked (Interleaving.lock2 c) sa = false →
  Interleaving.lock1 c ≠ Interleaving.lock2 c →
  let nested :=
    runExclusive (Interleaving.lock1 c)
      (runExclusive (Interleaving.lock2 c)
         (DatabaseStorage.transfer_exclusive (Interleaving.c_fromWalletId c)
            (Interleaving.c_toWalletId c) (Interleaving.c_toUserId c)
            (Interleaving.c_amount c) (Interleaving.c_description c))) sa in
  Interleaving.run [0; 0; 0; 0; 0]%nat
    {| Interleaving.world := sa;
       Interleaving.activities := [Interleaving.at_stage c Interleaving.AwaitFirst] |}
  = Some {| Interleaving.world := nested.2;
            Interleaving.activities :=
              [Interleaving.at_stage c (Interleaving.Settled nested.1)] |}.
Proof.
  intros Hf1 Hf2 Hne. cbv zeta.
  unfold runExclusive.
  destruct (acquire (Interleaving.lock1 c) sa) as [sb|] eqn:Hacq1;
    [|destruct (acquire_free _ sa Hf1) as [? ?]; congruence].
  destruct (acquire_spec _ _ _ Hacq1) as (_ & _ & Hother).
  assert (isLocked (Interleaving.lock2 c) sb = false) as Hf2b
    by (rewrite Hother; done).
  destruct (acquire (Interleaving.lock2 c) sb) as [sc|] eqn:Hacq2;
    [|destruct (acquire_free _ sb Hf2b) as [? ?]; congruence].
  destruct (exclusive_step c sc) as (r & sd & Hbody & Hnb & _).
  rewrite Hbody.
  rewrite run_cons,
    (step_solo _ (Interleaving.at_stage c Interleaving.AwaitSecond) sa sb)
    by (unfold Interleaving.activity_step; simpl; by rewrite Hacq1).
  cbn [mbind option_bind].
  rewrite run_cons,
    (step_solo _ (Interleaving.at_stage c Interleaving.Exclusive) sb sc)
    by (unfold Interleaving.activity_step; simpl; by rewrite Hacq2).
  cbn [mbind option_bind].
  rewrite run_cons,
    (step_solo _ (Interleaving.at_stage c (Interleaving.ReleaseSecond r)) sc sd)
    by (unfold Interleaving.activity_step; simpl; rewrite Hbody; by destruct r).
  cbn [mbind option_bind].
  rewrite run_cons,
    (step_solo _ (Interleaving.at_stage c (Interleaving.ReleaseFirst r)) sd
       (release (Interleaving.lock2 c) sd)) by done.
  cbn [mbind option_bind].
  rewrite run_cons,
    (step_solo _ (Interleaving.at_stage c (Interleaving.Settled r))
       (release (Interleaving.lock2 c) sd)
       (release (Interleaving.lock1 c) (release (Interleaving.lock2 c) sd)))
    by done.
  cbn [mbind option_bind Interleaving.run].
  by destruct r.
Qed.

(** A call of [transfer] that runs alone goes through the stages of a
    activity, and ends as [DatabaseStorage.transfer] does. *)
Lemma solo_activity_is_transfer (c : Interleaving.TransferCall) (s : World) :
  isLocked (Interleaving.lock1 c) s = false →
  isLocked (Interleaving.lock2 c) s = false →
  Interleaving.lock1 c ≠ Interleaving.lock2 c →
  let direct :=
    DatabaseStorage.transfer (Interleaving.c_fromWalletId c)
      (Interleaving.c_toWalletId c) (Interleaving.c_toUserId c)
      (Interleaving.c_amount c) (Interleaving.c_description c) s in
  Interleaving.run [0; 0; 0; 0; 0; 0]%nat
    {| Interleaving.world := s;
       Interleaving.activities := [Interleaving.at_stage c Interleaving.Called] |}
  = Some {| Interleaving.world := direct.2;
            Interleaving.activities :=
              [Interleaving.at_stage c (Interleaving.Settled direct.1)] |}.
Proof.
  intros H1 H2 Hne. cbv zeta.
  rewrite transfer_after_prelude.
  change (at_index (sort [Interleaving.c_fromWalletId c; Interleaving.c_toWalletId c]) 0)
    with (Interleaving.lock1 c).
  change (at_index (sort [Interleaving.c_fromWalletId c; Interleaving.c_toWalletId c]) 1)
    with (Interleaving.lock2 c).
  rewrite <- activity_from_await_first; [done| | |done];
    by rewrite called_step_locks.
Qed.

(** C8. Every transfer asks for its two mutexes in the order of
    [sort()]: the smaller wallet id first, whichever the direction.  So
    for two transfers between the same two distinct wallets in opposite
    directions, called while nobody holds the two mutexes: they ask for
    the same first and the same second mutex; however the scheduler
    interleaves them, the run has at most twelve steps, at every point
    where a transfer has not settled one of the two can take a step (no
    state in which each waits for the other), and once twelve steps are
    taken both have settled. *)
Theorem opposite_transfers_complete
    (s : World) (x y xUser yUser : string) (amount1 amount2 : number)
    (d1 d2 : option string) :
  x ≠ y →
  isLocked x s = false →
  isLocked y s = false →
  let forth :=
    {| Interleaving.c_fromWalletId := x; Interleaving.c_toWalletId := y;
       Interleaving.c_toUserId := yUser; Interleaving.c_amount := amount1;
       Interleaving.c_description := d1 |} in
  let back :=
    {| Interleaving.c_fromWalletId := y; Interleaving.c_toWalletId := x;
       Interleaving.c_toUserId := xUser; Interleaving.c_amount := amount2;
       Interleaving.c_description := d2 |} in
  (Interleaving.lock1 forth = Interleaving.lock1 back ∧
   Interleaving.lock2 forth = Interleaving.lock2 back ∧
   Interleaving.lock1 forth ≠ Interleaving.lock2 forth ∧
   String.leb (Interleaving.lock1 forth) (Interleaving.lock2 forth) = true) ∧
  ∀ schedule sys',
    Interleaving.run schedule
      (Interleaving.opposite_transfers s x y xUser yUser amount1 amount2 d1 d2)
    = Some sys' →
    (length schedule ≤ 12)%nat ∧
    (Interleaving.all_settled sys' = false →
     ∃ i sys'', Interleaving.step_at i sys' = Some sys'') ∧
    (length schedule = 12%nat → Interleaving.all_settled sys' = true).
Proof.
  intros Hne Hx Hy. cbv zeta.
  destruct (transfer_locks_distinct x y Hne) as [Hd Hwhich].
  assert (Interleaving.lock1
            {| Interleaving.c_fromWalletId := y; Interleaving.c_toWalletId := x;
               Interleaving.c_toUserId := xUser; Interleaving.c_amount := amount2;
               Interleaving.c_description := d2 |}
          = at_index (sort [x; y]) 0) as Hb1.
  { unfold Interleaving.lock1, Interleaving.locks_of. simpl.
    by rewrite (lock_order_symmetric x y). }
  assert (Interleaving.lock2
            {| Interleaving.c_fromWalletId := y; Interleaving.c_toWalletId := x;
               Interleaving.c_toUserId := xUser; Interleaving.c_amount := amount2;
               Interleaving.c_description := d2 |}
          = at_index (sort [x; y]) 1) as Hb2.
  { unfold Interleaving.lock2, Interleaving.locks_of. simpl.
    by rewrite (lock_order_symmetric x y). }
  split.
  { rewrite Hb1, Hb2. repeat split; try done. apply lock_order_sorted. }
  intros schedule sys' Hrun.
  set (first := at_index (sort [x; y]) 0) in *.
  set (second := at_index (sort [x; y]) 1) in *.
  assert (isLocked first s = false ∧ isLocked second s = false) as [H1 H2]
    by (destruct Hwhich as [[-> ->]|[-> ->]]; done).
  assert (Interleaving.consistent first second
            (Interleaving.opposite_transfers s x y xUser yUser amount1 amount2 d1 d2))
    as Hc0.
  { eexists _, _. split; [reflexivity|]. simpl.
    repeat split; try done. }
  destruct (run_consistent first second schedule _ sys' Hd Hc0 Hrun) as [Hc Hm].
  change (Interleaving.total_remaining
            (Interleaving.opposite_transfers s x y xUser yUser amount1 amount2 d1 d2))
    with 12%nat in Hm.
  split; [lia|]. split.
  - by apply (consistent_progress first second).
  - intros Hlen. apply (none_remaining_settled first second); [done|lia].
Qed.

Lemma opposite_transfers_complete_witness :
  (isLocked "A" (sample_world []) = false ∧ isLocked "B" (sample_world []) = false) ∧
  (∀ schedule sys',
     Interleaving.run schedule
       (Interleaving.opposite_transfers (sample_world []) "A" "B" "alice" "bob"
          (JsNumber.number_of_decimal 10000) (JsNumber.number_of_decimal 2500)
          None None)
     = Some sys' →
     (length schedule ≤ 12)%nat ∧
     (Interleaving.all_settled sys' = false →
      ∃ i sys'', Interleaving.step_at i sys' = Some sys'') ∧
     (length schedule = 12%nat → Interleaving.all_settled sys' = true)).
Proof.
  split; [split; reflexivity|].
  apply (opposite_transfers_complete (sample_world []) "A" "B" "alice" "bob").
  - discriminate.
  - reflexivity.
  - reflexivity.
Defined.

(** One complete run of two such transfers on the sample world: the second
    call is resumed first and takes both mutexes; the first call waits
    and runs after it. *)
Example opposite_transfers_run :
  let sys0 :=
    Interleaving.opposite_transfers (sample_world []) "A" "B" "alice" "bob"
      (JsNumber.number_of_decimal 10000) (JsNumber.number_of_decimal 2500)
      None None in
  (Interleaving.run [1; 0; 1; 0]%nat sys0 ≫= Interleaving.step_at 0) = None ∧
  ∃ sys',
    Interleaving.run [1; 0; 1; 1; 1; 1; 1; 0; 0; 0; 0; 0]%nat sys0 = Some sys' ∧
    Interleaving.all_settled sys' = true ∧
    (wallets (Interleaving.world sys') !! "A"
     = Some (DatabaseStorage.with_balance 40000 wallet_A)) ∧
    (wallets (Interleaving.world sys') !! "B"
     = Some (DatabaseStorage.with_balance 10000 wallet_B)).
Proof.
  cbv zeta. split; [by vm_compute|].
  eexists. split; [vm_compute; reflexivity|]. split; [|split]; reflexivity.
Qed.
